(** * Raycaster geometry core: colliders, grid raycaster and raycast camera

    A shallow embedding of the JavaScript modules [types2d.mjs],
    [colliders2d.mjs], [tilemap2d.mjs] and [camera2d.mjs].

    JavaScript numbers are IEEE 754 binary64 values.  They are modelled
    by [spec_float] at precision 53 and maximal exponent 1024, the
    executable specification of binary64 arithmetic of the standard
    library, so that infinities, signed zeros and NaN behave as they do in
    the program. *)

From Stdlib Require Import ZArith Bool List Lia.
From Stdlib Require Import Floats.SpecFloat.
From Stdlib Require Reals Lra.
Import ListNotations.

(** ** JavaScript numbers *)

Module JS.

Definition number : Type := spec_float.

Definition prec : Z := 53.
Definition emax : Z := 1024.

Definition NaN : number := S754_nan.

(** The number denoted by the integer [z] (rounded when [z] has more than
    53 significant bits). *)
Definition of_Z (z : Z) : number := binary_normalize prec emax z 0 false.

(** The number nearest to [m * 2^e]. *)
Definition dyadic (m e : Z) : number := binary_normalize prec emax m e false.

Definition add : number -> number -> number := SFadd prec emax.
Definition sub : number -> number -> number := SFsub prec emax.
Definition mul : number -> number -> number := SFmul prec emax.
Definition div : number -> number -> number := SFdiv prec emax.
Definition neg : number -> number := SFopp.

(** Relational operators: every comparison with NaN is false. *)
Definition lt (a b : number) : bool := SFltb a b.
Definition le (a b : number) : bool := SFleb a b.
Definition gt (a b : number) : bool := SFltb b a.
Definition ge (a b : number) : bool := SFleb b a.
(** [===] on two numbers: NaN differs from itself, [+0 === -0]. *)
Definition strict_eq (a b : number) : bool := SFeqb a b.

Definition is_nan (a : number) : bool :=
  match a with S754_nan => true | _ => false end.

Definition is_finite (a : number) : bool :=
  match a with S754_zero _ | S754_finite _ _ _ => true | _ => false end.

Definition is_zero (a : number) : bool :=
  match a with S754_zero _ => true | _ => false end.

(** The values of [spec_float] that are binary64 numbers: a finite one
    has its mantissa and exponent in canonical form. *)
Definition valid (a : number) : bool := valid_binary prec emax a.

(** [Math.abs], [Math.sqrt], [Math.sign]. *)
Definition Math_abs : number -> number := SFabs.
Definition Math_sqrt : number -> number := SFsqrt prec emax.

Definition Math_sign (a : number) : number :=
  match a with
  | S754_nan => S754_nan
  | S754_zero s => S754_zero s
  | S754_infinity s | S754_finite s _ _ => if s then of_Z (-1) else of_Z 1
  end.

(** [Math.max] and [Math.min]: NaN when an argument is NaN, and [-0] is
    smaller than [+0]. *)
Definition Math_max (a b : number) : number :=
  match SFcompare a b with
  | None => NaN
  | Some Lt => b
  | Some Gt => a
  | Some Eq => match a with S754_zero true => b | _ => a end
  end.

Definition Math_min (a b : number) : number :=
  match SFcompare a b with
  | None => NaN
  | Some Lt => a
  | Some Gt => b
  | Some Eq => match a with S754_zero false => b | _ => a end
  end.

(** [Math.floor].  A finite number is [±m * 2^e]; with [e >= 0] it is an
    integer already, otherwise the integer part is computed exactly. *)
Definition Math_floor (a : number) : number :=
  match a with
  | S754_finite s m e =>
      if (0 <=? e)%Z then a
      else
        let z := ((if s then Z.neg m else Z.pos m) / 2 ^ (- e))%Z in
        binary_normalize prec emax z 0 s
  | _ => a
  end.

(** The remainder operator [%]: the result has the sign of the dividend
    and is computed without rounding. *)
Definition rem (a b : number) : number :=
  match a, b with
  | S754_nan, _ | _, S754_nan => NaN
  | S754_infinity _, _ => NaN
  | _, S754_zero _ => NaN
  | _, S754_infinity _ => a
  | S754_zero _, _ => a
  | S754_finite sa ma ea, S754_finite _ mb eb =>
      let e := Z.min ea eb in
      let za := (Z.pos ma * 2 ^ (ea - e))%Z in
      let zb := (Z.pos mb * 2 ^ (eb - e))%Z in
      let r := Z.rem za zb in
      binary_normalize prec emax (if sa then (- r)%Z else r) e sa
  end.

(** [ToInt32] of an integer and the shift [n << 1] on it. *)
Definition ToInt32 (z : Z) : Z :=
  let w := (z mod 2 ^ 32)%Z in
  if (w <? 2 ^ 31)%Z then w else (w - 2 ^ 32)%Z.

Definition shl1 (z : Z) : Z := ToInt32 (2 * ToInt32 z).

(** [Math.clamp], added to [Math] by both modules. *)
Definition Math_clamp (val min max : number) : number :=
  Math_max min (Math_min val max).

End JS.

Declare Scope js_scope.
Delimit Scope js_scope with js.
Bind Scope js_scope with JS.number.
Infix "+" := JS.add : js_scope.
Infix "-" := JS.sub : js_scope.
Infix "*" := JS.mul : js_scope.
Infix "/" := JS.div : js_scope.
Infix "%%" := JS.rem (at level 40, left associativity) : js_scope.
Notation "- x" := (JS.neg x) : js_scope.
Infix "<?" := JS.lt : js_scope.
Infix "<=?" := JS.le : js_scope.
Infix ">?" := JS.gt : js_scope.
Infix ">=?" := JS.ge : js_scope.
Infix "===" := JS.strict_eq (at level 70, no associativity) : js_scope.
Notation "0" := (S754_zero false) : js_scope.
Notation "1" := (JS.of_Z 1) : js_scope.
Notation "2" := (JS.of_Z 2) : js_scope.

Import JS.
Local Open Scope js_scope.

(** ** types2d.mjs *)

(** [Point2D]: the fields [_x] and [_y], read through the getters [x] and
    [y].  [Vector2D] extends [Point2D] without adding a field, and an
    object literal [{x: a, y: b}] offers the same two properties, so the
    three share this record. *)
Record Point2D : Type := new_Point2D { _x : number; _y : number }.

Definition Vector2D : Type := Point2D.
Definition new_Vector2D : number -> number -> Vector2D := new_Point2D.

Definition Point2D_distanceTo (this point : Point2D) : number :=
  let x := _x point - _x this in
  let y := _y point - _y this in
  Math_sqrt ((x * x) + (y * y)).

Definition Point2D_distanceTo2 (this point : Point2D) : number :=
  let x := _x point - _x this in
  let y := _y point - _y this in
  (x * x) + (y * y).

Definition Vector2D_magnitude (this : Vector2D) : number :=
  Math_sqrt (_x this * _x this + _y this * _y this).

(** [normalize()] and the setter of [magnitude], which normalizes and
    then scales; both return the vector after the update. *)
Definition Vector2D_normalize (this : Vector2D) : Vector2D :=
  let mag := Vector2D_magnitude this in
  new_Vector2D (_x this / mag) (_y this / mag).

Definition Vector2D_set_magnitude (this : Vector2D) (val : number) : Vector2D :=
  let this' := Vector2D_normalize this in
  new_Vector2D (_x this' * val) (_y this' * val).

(** [rotate(x, y, direction)]. *)
Definition Vector2D_rotate (this : Vector2D) (x y direction : number) : Vector2D :=
  let tX := _x this * x + (_y this * - direction) * y in
  let tY := (_x this * y + (_y this * direction) * x) * direction in
  new_Vector2D tX tY.

(** [rotateByVector(vector)] and [unrotateByVector(vector)]. *)
Definition Vector2D_rotateByVector (this vector : Vector2D) : Vector2D :=
  Vector2D_rotate this (_x vector) (_y vector) 1.

Definition Vector2D_unrotateByVector (this vector : Vector2D) : Vector2D :=
  Vector2D_rotate this (_x vector) (_y vector) (of_Z (-1)).

(** ** colliders2d.mjs: data *)

(** [class CircleCollider extends Point2D] and
    [class AABBCollider extends Point2D]: the inherited part is a
    coercion, so a collider can stand where a point is expected, as when
    a sweep passes the moving collider as the origin of a vector test. *)
Record CircleCollider : Type := new_CircleCollider_at
  { circle_point :> Point2D; _radius : number }.

Definition new_CircleCollider (x y radius : number) : CircleCollider :=
  new_CircleCollider_at (new_Point2D x y) radius.

Record AABBCollider : Type := new_AABBCollider_at
  { box_point :> Point2D; _rX : number; _rY : number }.

Definition new_AABBCollider (x y rX rY : number) : AABBCollider :=
  new_AABBCollider_at (new_Point2D x y) rX rY.

(** [class BoundingBox extends Point2D] of [types2d.mjs] stores the same
    four fields [_x], [_y], [_rX], [_rY]. *)
Definition BoundingBox : Type := AABBCollider.

(** Arguments are dynamically typed.  A parameter receives a number, or
    [undefined] when the call passes fewer arguments than the method has
    parameters, or a collider object.  Colliders define neither [valueOf]
    nor [toString], so that [ToNumber] of one is NaN, as it is of
    [undefined]. *)
Inductive value : Type :=
| VNum (n : number)
| VUndefined
| VObject (o : AABBCollider).

Definition ToNumber (v : value) : number :=
  match v with
  | VNum n => n
  | VUndefined => NaN
  | VObject _ => NaN
  end.

(** The hit descriptor [{delta, normal, pos}], with [time] for the vector
    tests.  [pos] can hold an argument as it was passed. *)
Record Pos : Type := new_Pos { pos_x : value; pos_y : value }.

Record HitInfo : Type := new_HitInfo
  { time : option number; delta : Point2D; normal : Point2D; pos : Pos }.

(** Reading a property of [null] throws a [TypeError]. *)
Inductive completion (A : Type) : Type :=
| Normal (a : A)
| TypeError.
Arguments Normal {A} a.
Arguments TypeError {A}.

(** ** colliders2d.mjs: CircleCollider *)

Definition CircleCollider_collision (this circle : CircleCollider) : bool :=
  Point2D_distanceTo2 this circle <?
    ((_radius this + _radius circle) * (_radius this + _radius circle)).

Definition CircleCollider_intersection
    (this : CircleCollider) (x y radius : number) : option HitInfo :=
  let d := new_Point2D (_x this - x) (_y this - y) in
  let dist2 := (_x d * _x d) + (_y d * _y d) in
  let cR := _radius this + radius in
  let r2 := cR * cR in
  if dist2 <? r2 then
    let dist := Math_sqrt dist2 in
    let offset := cR - dist in
    let n := new_Point2D (_x d / dist) (_y d / dist) in
    let v := new_Point2D (_x n * offset) (_y n * offset) in
    let p := new_Point2D (_x this - (_x n * _radius this))
                         (_y this - (_y n * _radius this)) in
    Some {| time := None;
            delta := new_Point2D (- _x v) (- _y v);
            normal := new_Point2D (- _x n) (- _y n);
            pos := new_Pos (VNum (_x p)) (VNum (_y p)) |}
  else None.

Definition CircleCollider_pointIntersection
    (this : CircleCollider) (point : Point2D) : option HitInfo :=
  CircleCollider_intersection this (_x point) (_y point) 0.

Definition CircleCollider_circleIntersection
    (this circle : CircleCollider) : option HitInfo :=
  CircleCollider_intersection this (_x circle) (_y circle) (_radius circle).

Definition CircleCollider_vectorIntersection
    (this : CircleCollider) (origin : Point2D) (vector : Vector2D)
    (padding : number) : option HitInfo :=
  let vM := Vector2D_magnitude vector in
  let vU := new_Point2D (_x vector / vM) (_y vector / vM) in
  let t := _x vU * (_x this - _x origin) + _y vU * (_y this - _y origin) in
  let e := new_Point2D (t * _x vU + _x origin) (t * _y vU + _y origin) in
  let eM2 := ((_x e - _x this) * (_x e - _x this))
             + ((_y e - _y this) * (_y e - _y this)) in
  let r2 := (_radius this + padding) * (_radius this + padding) in
  if eM2 <? r2 then
    let dt := Math_sqrt (r2 - eM2) in
    let f := new_Point2D ((t - dt) * _x vU + _x origin)
                         ((t - dt) * _y vU + _y origin) in
    let p2 := new_Point2D ((_x origin + _x vector) - _x this)
                          ((_y origin + _y vector) - _y this) in
    if (_x p2 * _x p2 + _y p2 * _y p2) >? r2 then None
    else
      let n := new_Point2D ((_x f - _x this) / (_radius this + padding))
                           ((_y f - _y this) / (_radius this + padding)) in
      Some {| time := None;
              delta := new_Point2D (_x f - _x origin) (_y f - _y origin);
              normal := new_Point2D (_x n) (_y n);
              pos := new_Pos (VNum (_x f)) (VNum (_y f)) |}
  else None.

Definition CircleCollider_sweptCircleIntersection
    (this circle : CircleCollider) (vector : Vector2D) : option HitInfo :=
  match CircleCollider_vectorIntersection this circle vector (_radius circle) with
  | Some hit =>
      Some {| time := time hit;
              delta := delta hit;
              normal := normal hit;
              pos := new_Pos
                (VNum (ToNumber (pos_x (pos hit)) - _x (normal hit) * _radius circle))
                (VNum (ToNumber (pos_y (pos hit)) - _y (normal hit) * _radius circle)) |}
  | None => None
  end.

(** ** colliders2d.mjs: AABBCollider *)

(** [intersection(x, y, rX, rY)].  The parameters are used in arithmetic,
    which converts them with [ToNumber], except in [pos], which stores [x]
    or [y] as received.  ([rX + this._rX] with an object [rX] would be a
    string concatenation; the subtraction that follows converts that
    string to NaN, the value obtained here.) *)
Definition AABBCollider_intersection
    (this : AABBCollider) (x y rX rY : value) : option HitInfo :=
  let dX := ToNumber x - _x this in
  let pX := (ToNumber rX + _rX this) - Math_abs dX in
  if pX <=? 0 then None
  else
    let dY := ToNumber y - _y this in
    let pY := (ToNumber rY + _rY this) - Math_abs dY in
    if pY <=? 0 then None
    else if pX <=? pY then
      let sX := Math_sign dX in
      Some {| time := None;
              delta := new_Point2D (pX * sX) 0;
              normal := new_Point2D sX 0;
              pos := new_Pos (VNum (_x this + (_rX this * sX))) y |}
    else
      let sY := Math_sign dY in
      Some {| time := None;
              delta := new_Point2D 0 (pY * sY);
              normal := new_Point2D 0 sY;
              pos := new_Pos x (VNum (_y this + (_rY this * sY))) |}.

Definition AABBCollider_pointIntersection
    (this : AABBCollider) (point : Point2D) : option HitInfo :=
  AABBCollider_intersection this (VNum (_x point)) (VNum (_y point)) (VNum 0) (VNum 0).

Definition AABBCollider_boxIntersection
    (this box : AABBCollider) : option HitInfo :=
  AABBCollider_intersection this
    (VNum (_x box)) (VNum (_y box)) (VNum (_rX box)) (VNum (_rY box)).

Definition AABBCollider_circleIntersection
    (this : AABBCollider) (circle : CircleCollider) : option HitInfo :=
  AABBCollider_intersection this
    (VNum (_x circle)) (VNum (_y circle))
    (VNum (_radius circle)) (VNum (_radius circle)).

(** The per-axis entry and exit times of the slab method, as the first
    statements of [vectorIntersection] compute them. *)
Record SlabTimes : Type := new_SlabTimes
  { signX : number; signY : number;
    nearTimeX : number; nearTimeY : number;
    farTimeX : number; farTimeY : number }.

Definition slab_times (this : AABBCollider) (origin : Point2D)
    (vector : Vector2D) (pX pY : number) : SlabTimes :=
  let scaleX := 1 / _x vector in
  let scaleY := 1 / _y vector in
  let signX := Math_sign scaleX in
  let signY := Math_sign scaleY in
  {| signX := signX; signY := signY;
     nearTimeX := (_x this - signX * (_rX this + pX) - _x origin) * scaleX;
     nearTimeY := (_y this - signY * (_rY this + pY) - _y origin) * scaleY;
     farTimeX := (_x this + signX * (_rX this + pX) - _x origin) * scaleX;
     farTimeY := (_y this + signY * (_rY this + pY) - _y origin) * scaleY |}.

(** The statements after the two rejection tests, common to both
    versions of [vectorIntersection]. *)
Definition slab_hit (s : SlabTimes) (nearTime : number)
    (origin : Point2D) (vector : Vector2D) : HitInfo :=
  let time := Math_clamp nearTime 0 1 in
  {| time := Some time;
     normal := if nearTimeX s >? nearTimeY s
               then new_Point2D (- signX s) 0
               else new_Point2D 0 (- signY s);
     delta := new_Point2D ((1 - time) * - _x vector) ((1 - time) * - _y vector);
     pos := new_Pos (VNum (_x origin + _x vector * time))
                    (VNum (_y origin + _y vector * time)) |}.

Definition AABBCollider_nearTime (s : SlabTimes) : number :=
  if nearTimeX s >? nearTimeY s then nearTimeX s else nearTimeY s.

Definition AABBCollider_farTime (s : SlabTimes) : number :=
  if farTimeX s <? farTimeY s then farTimeX s else farTimeY s.

Definition AABBCollider_vectorIntersection
    (this : AABBCollider) (origin : Point2D) (vector : Vector2D)
    (pX pY : number) : option HitInfo :=
  let s := slab_times this origin vector pX pY in
  if (nearTimeX s >? farTimeY s) || (nearTimeY s >? farTimeX s) then None
  else
    let nearTime := AABBCollider_nearTime s in
    let farTime := AABBCollider_farTime s in
    if (nearTime >=? 1) || (farTime <=? 0) then None
    else Some (slab_hit s nearTime origin vector).

(** [hit.delta.x += vector.x; hit.delta.y += vector.y]. *)
Definition add_to_delta (hit : HitInfo) (vector : Vector2D) : HitInfo :=
  {| time := time hit;
     delta := new_Point2D (_x (delta hit) + _x vector) (_y (delta hit) + _y vector);
     normal := normal hit;
     pos := pos hit |}.

(** [sweptBoxIntersection(box, vector)].  The static branch is the call
    [this.intersection(box)]: [x] receives the box object and [y], [rX],
    [rY] receive [undefined]. *)
Definition AABBCollider_sweptBoxIntersection
    (this box : AABBCollider) (vector : Vector2D) : option HitInfo :=
  if (_x vector === 0) && (_y vector === 0) then
    AABBCollider_intersection this (VObject box) VUndefined VUndefined VUndefined
  else
    match AABBCollider_vectorIntersection this box vector (_rX box) (_rY box) with
    | Some hit => Some (add_to_delta hit vector)
    | None => None
    end.

Definition AABBCollider_sweptCircleIntersection
    (this : AABBCollider) (circle : CircleCollider) (vector : Vector2D)
    : option HitInfo :=
  if (_x vector === 0) && (_y vector === 0) then
    AABBCollider_circleIntersection this circle
  else
    match AABBCollider_vectorIntersection this circle vector
            (_radius circle) (_radius circle) with
    | Some hit => Some (add_to_delta hit vector)
    | None => None
    end.

(** [CircleCollider.boxIntersection(box)].  [hit.pos] and [hit.delta] are
    read without a test for [null]. *)
Definition CircleCollider_boxIntersection
    (this : CircleCollider) (box : AABBCollider) : completion (option HitInfo) :=
  let r := new_Point2D (_rX box) (_rY box) in
  let d := new_Point2D (_x this - _x box) (_y this - _y box) in
  let c := new_Point2D (Math_clamp (_x d) (- _x r) (_x r))
                       (Math_clamp (_y d) (- _y r) (_y r)) in
  let cP := new_Point2D (_x box + _x c) (_y box + _y c) in
  if (_x cP === _x this) && (_y cP === _y this) then
    let b_w := _x r * 2 in
    let b_h := _y r * 2 in
    match AABBCollider_intersection box (VNum (_x cP)) (VNum (_y cP)) (VNum 1) (VNum 1) with
    | None => TypeError
    | Some hit =>
        let cP := new_Point2D
                    (ToNumber (pos_x (pos hit)) - b_w * _x (normal hit))
                    (ToNumber (pos_y (pos hit)) - b_h * _y (normal hit)) in
        match CircleCollider_intersection this (_x cP) (_y cP) 0 with
        | None => TypeError
        | Some hit =>
            Normal (Some
              {| time := time hit;
                 delta := new_Point2D (_x (delta hit) + b_w * _x (normal hit))
                                      (_y (delta hit) + b_h * _y (normal hit));
                 normal := normal hit;
                 pos := pos hit |})
        end
    end
  else Normal (CircleCollider_intersection this (_x cP) (_y cP) 0).

(** ** types2d.mjs: the earlier BoundingCircle and BoundingBox *)

(** [class BoundingCircle extends Point2D] stores [_x], [_y], [_radius]. *)
Definition BoundingCircle : Type := CircleCollider.

Definition BoundingCircle_collision (this circle : BoundingCircle) : bool :=
  Point2D_distanceTo this circle <? (_radius this + _radius circle).

Definition BoundingBox_farTime (s : SlabTimes) : number :=
  if farTimeX s >? farTimeY s then farTimeX s else farTimeY s.

Definition BoundingBox_vectorIntersection
    (this : BoundingBox) (origin : Point2D) (vector : Vector2D)
    (pX pY : number) : option HitInfo :=
  let s := slab_times this origin vector pX pY in
  if (nearTimeX s >? farTimeY s) || (nearTimeY s >? farTimeX s) then None
  else
    let nearTime := AABBCollider_nearTime s in
    let farTime := BoundingBox_farTime s in
    if (nearTime >=? 1) || (farTime <=? 0) then None
    else Some (slab_hit s nearTime origin vector).

(** The hits of [BoundingBox] carry the normal as one number. *)
Record BoundingHit : Type := new_BoundingHit
  { bdelta : Point2D; bnormal : number; bpos : Point2D }.

(** Reading a variable that no scope declares throws a
    [ReferenceError]. *)
Inductive evaluation (A : Type) : Type :=
| Value (a : A)
| ReferenceError.
Arguments Value {A} a.
Arguments ReferenceError {A}.

(** [BoundingBox.pointIntersection(point)].  [sX] is declared by [const]
    in the block of the first branch; the second branch reads [sX] when
    it builds [pos], where no declaration of it is in scope. *)
Definition BoundingBox_pointIntersection
    (this : BoundingBox) (point : Point2D) : evaluation (option BoundingHit) :=
  let dX := _x point - _x this in
  let pX := _rX this - Math_abs dX in
  if pX <=? 0 then Value None
  else
    let dY := _y point - _y this in
    let pY := _rY this - Math_abs dY in
    if pY <=? 0 then Value None
    else if pX <? pY then
      let sX := Math_sign dX in
      Value (Some {| bdelta := new_Point2D (pX * sX) 0;
                     bnormal := sX;
                     bpos := new_Point2D (_x this + (_rX this * sX)) (_y point) |})
    else ReferenceError.

(** [BoundingBox.intersection(box)]. *)
Definition BoundingBox_intersection
    (this box : BoundingBox) : option BoundingHit :=
  let dX := _x box - _x this in
  let pX := (_rX box + _rX this) - Math_abs dX in
  if pX <=? 0 then None
  else
    let dY := _y box - _y this in
    let pY := (_rY box + _rY this) - Math_abs dY in
    if pY <=? 0 then None
    else if pX <? pY then
      let sX := Math_sign dX in
      Some {| bdelta := new_Point2D (pX * sX) 0;
              bnormal := sX;
              bpos := new_Point2D (_x this + (_rX this * sX)) (_y box) |}
    else
      let sY := Math_sign dY in
      Some {| bdelta := new_Point2D 0 (pY * sY);
              bnormal := sY;
              bpos := new_Point2D (_x box) (_y this + (_rY this * sY)) |}.

(** ** tilemap2d.mjs *)

Record Tile2D : Type := new_Tile2D
  { _type : number; _blocking : bool; _opaque : bool }.

(** [camera2d.mjs] imports [TileMap2D] and only calls its method
    [getTile(cellX, cellY)]; the class itself is not part of the modules
    at hand, so a map is the function that answers this query. *)
Record TileMap2D : Type := new_TileMap2D
  { getTile : number -> number -> Tile2D }.

(** ** camera2d.mjs: Ray2D *)

Record Ray2D : Type := mk_Ray2D { _origin : Point2D; _vector : Vector2D }.

(** [constructor(origin, vector)]. *)
Definition new_Ray2D (origin : Point2D) (vector : Vector2D) : Ray2D :=
  {| _origin := new_Point2D (_x origin) (_y origin);
     _vector := new_Vector2D (_x origin) (_y origin) |}.

(** [ray.vector.x = a; ray.vector.y = b]. *)
Definition Ray2D_set_vector (ray : Ray2D) (a b : number) : Ray2D :=
  {| _origin := _origin ray; _vector := new_Vector2D a b |}.

Inductive Axis : Type := axis_x | axis_y.

Record RayHit : Type := new_RayHit
  { tile : Tile2D; offset : number; axis : Axis; distance : number }.

(** The value returned by [cast]: a hit descriptor or the number [-1]. *)
Inductive CastResult : Type :=
| Hit (h : RayHit)
| NoHit.

Definition calcDistance (pos origin step vector : number) : number :=
  (pos - origin + (1 - step) / 2) / vector.

Definition calcOffset (pos origin distance vector : number) : number :=
  (pos + (origin %% 1)) + distance * vector.

(** The variables of [cast] that the loop updates. *)
Record CastState : Type := new_CastState
  { stepDistX : number; stepDistY : number;
    mapPosX : number; mapPosY : number }.

Section Cast.

Variable map : TileMap2D.
Variables originX originY vectorX vectorY : number.
Variables rayDeltaX rayDeltaY rayStepX rayStepY : number.

(** The loop [for (let i = 0; i < range; i++)]: [fuel] is [range - i],
    the number of iterations left.  The result pairs the value returned
    with the number of iterations that were started. *)
Fixpoint cast_loop (fuel i : nat) (st : CastState) : nat * CastResult :=
  match fuel with
  | O => (i, NoHit)
  | S fuel' =>
      if stepDistX st <? stepDistY st then
        let stepDistX' := stepDistX st + rayDeltaX in
        let mapPosX' := mapPosX st + rayStepX in
        let tile := getTile map mapPosX' (mapPosY st) in
        if _blocking tile then
          let distance := calcDistance mapPosX' originX rayStepX vectorX in
          let offset := calcOffset (mapPosY st) originY distance vectorY in
          (S i, Hit {| tile := tile; offset := offset;
                       axis := axis_x; distance := distance |})
        else
          cast_loop fuel' (S i)
            {| stepDistX := stepDistX'; stepDistY := stepDistY st;
               mapPosX := mapPosX'; mapPosY := mapPosY st |}
      else
        let stepDistY' := stepDistY st + rayDeltaY in
        let mapPosY' := mapPosY st + rayStepY in
        let tile := getTile map (mapPosX st) mapPosY' in
        if _blocking tile then
          let distance := calcDistance mapPosY' originY rayStepY vectorY in
          let offset := calcOffset (mapPosX st) originX distance vectorX in
          (S i, Hit {| tile := tile; offset := offset;
                       axis := axis_y; distance := distance |})
        else
          cast_loop fuel' (S i)
            {| stepDistX := stepDistX st; stepDistY := stepDistY';
               mapPosX := mapPosX st; mapPosY := mapPosY' |}
  end.

End Cast.

(** [cast(map, range)], with the count of loop iterations.  [range] is the
    number of steps, a natural number. *)
Definition Ray2D_cast_steps (this : Ray2D) (map : TileMap2D) (range : nat)
    : nat * CastResult :=
  let originX := _x (_origin this) in
  let originY := _y (_origin this) in
  let vectorX := _x (_vector this) in
  let vectorY := _y (_vector this) in
  let rayDeltaX := Math_abs (1 / vectorX) in
  let rayDeltaY := Math_abs (1 / vectorY) in
  let mapPosX := Math_floor originX in
  let mapPosY := Math_floor originY in
  let '(rayStepX, stepDistX) :=
    if vectorX <? 0
    then (of_Z (-1), (originX - mapPosX) * rayDeltaX)
    else (1, (mapPosX + 1 - originX) * rayDeltaX) in
  let '(rayStepY, stepDistY) :=
    if vectorY <? 0
    then (of_Z (-1), (originY - mapPosY) * rayDeltaY)
    else (1, (mapPosY + 1 - originY) * rayDeltaY) in
  cast_loop map originX originY vectorX vectorY
    rayDeltaX rayDeltaY rayStepX rayStepY range 0
    {| stepDistX := stepDistX; stepDistY := stepDistY;
       mapPosX := mapPosX; mapPosY := mapPosY |}.

Definition Ray2D_cast (this : Ray2D) (map : TileMap2D) (range : nat) : CastResult :=
  snd (Ray2D_cast_steps this map range).

(** ** camera2d.mjs: RayCamera2D *)

(** [_scene] is an array whose slots are empty until [rayCast] fills
    them. *)
Record RayCamera2D : Type := mk_RayCamera2D
  { _position : Point2D; _direction : Vector2D;
    _fov : number; _range : nat;
    _scene : list (option CastResult) }.

Definition default_fov : number := of_Z 157079632679 / of_Z 100000000000.

(** [constructor(position, direction, columns, fov = 1.57079632679, range = 15)]. *)
Definition new_RayCamera2D (position : Point2D) (direction : Vector2D)
    (columns : nat) (fov : option number) (range : option nat) : RayCamera2D :=
  {| _position := new_Point2D (_x position) (_y position);
     _direction := new_Vector2D (_x direction) (_y direction);
     _fov := match fov with Some f => f | None => default_fov end;
     _range := match range with Some r => r | None => 15%nat end;
     _scene := repeat None columns |}.

(** [this._scene[column] = v] for an index within the array. *)
Fixpoint set_nth {A : Type} (l : list A) (n : nat) (v : A) : list A :=
  match l, n with
  | [], _ => []
  | _ :: t, O => v :: t
  | h :: t, S n' => h :: set_nth t n' v
  end.

(** The vector that the body of the loop of [rayCast] gives the ray for
    [column]. *)
Definition column_offset (halfFOV : number) (columns column : nat) : number :=
  ((of_Z (shl1 (Z.of_nat column)) / (of_Z (Z.of_nat columns) - 1)) - 1) * halfFOV.

Definition column_vector (this : RayCamera2D) (column : nat) : Vector2D :=
  let halfFOV := _fov this / 2 in
  let columns := length (_scene this) in
  let dirX := _x (_direction this) in
  let dirY := _y (_direction this) in
  let offset := column_offset halfFOV columns column in
  new_Vector2D (dirX - offset * dirY) (dirY - offset * - dirX).

(** The loop [for (let column = 0; column < columns; column++)]; [todo]
    is [columns - column].  The ray is one object whose vector each
    iteration overwrites; the loop returns it with the scene. *)
Fixpoint rayCast_loop (this : RayCamera2D) (map : TileMap2D)
    (todo column : nat) (ray : Ray2D) (scene : list (option CastResult))
    : Ray2D * list (option CastResult) :=
  match todo with
  | O => (ray, scene)
  | S todo' =>
      let v := column_vector this column in
      let ray' := Ray2D_set_vector ray (_x v) (_y v) in
      rayCast_loop this map todo' (S column) ray'
        (set_nth scene column (Some (Ray2D_cast ray' map (_range this))))
  end.

Definition RayCamera2D_rayCast_ray (this : RayCamera2D) (map : TileMap2D)
    : Ray2D * list (option CastResult) :=
  let columns := length (_scene this) in
  let ray := new_Ray2D (_position this) (_direction this) in
  rayCast_loop this map columns 0 ray (_scene this).

(** [rayCast(map)]: the camera after the call. *)
Definition RayCamera2D_rayCast (this : RayCamera2D) (map : TileMap2D) : RayCamera2D :=
  {| _position := _position this; _direction := _direction this;
     _fov := _fov this; _range := _range this;
     _scene := snd (RayCamera2D_rayCast_ray this map) |}.

(** The setter of [columns], [this._scene.length = val]: the array is cut
    to [val] slots or extended with empty slots. *)
Definition RayCamera2D_set_columns (this : RayCamera2D) (val : nat) : RayCamera2D :=
  {| _position := _position this; _direction := _direction this;
     _fov := _fov this; _range := _range this;
     _scene := firstn val (_scene this)
               ++ repeat None (val - length (_scene this)) |}.

(** ** Notions the properties speak of *)

(** The penetration of two boxes on each axis, the quantities [pX] and
    [pY] of [intersection] when [this.boxIntersection(box)] calls it. *)
Definition centreDeltaX (this box : AABBCollider) : number := _x box - _x this.
Definition centreDeltaY (this box : AABBCollider) : number := _y box - _y this.

Definition penetrationX (this box : AABBCollider) : number :=
  (_rX box + _rX this) - Math_abs (centreDeltaX this box).

Definition penetrationY (this box : AABBCollider) : number :=
  (_rY box + _rY this) - Math_abs (centreDeltaY this box).

(** The box moved by a displacement. *)
Definition translated (box : AABBCollider) (d : Point2D) : AABBCollider :=
  new_AABBCollider (_x box + _x d) (_y box + _y d) (_rX box) (_rY box).

(** [near c x]: [x] is [c], up to the sign of a zero. *)
Definition near (c x : number) : Prop :=
  x = c \/ (is_zero c = true /\ is_zero x = true).

Definition near_or_NaN (c x : number) : Prop := x = NaN \/ near c x.

Definition zero_or_NaN (z : number) : Prop := z = NaN \/ is_zero z = true.

(** [opposite a b]: [b] is [-a], up to the sign of a zero. *)
Definition opposite (a b : number) : Prop :=
  b = - a \/ (is_zero a = true /\ is_zero b = true).

(** NaN or a number whose sign bit is clear. *)
Definition sign_clear (a : number) : bool :=
  match a with
  | S754_nan => true
  | S754_zero s | S754_infinity s | S754_finite s _ _ => negb s
  end.

(** The hit whose every component is NaN. *)
Definition NaN_hit : HitInfo :=
  {| time := None;
     delta := new_Point2D NaN NaN;
     normal := new_Point2D NaN NaN;
     pos := new_Pos (VNum NaN) (VNum NaN) |}.

(** A box whose four fields are binary64 numbers. *)
Definition valid_box (box : AABBCollider) : bool :=
  valid (_x box) && valid (_y box) && valid (_rX box) && valid (_rY box).

(** ** Numbers on a dyadic grid, and their real values *)

(** [canon z k] is the binary64 number [z * 2^k] written with a mantissa
    of 53 bits, for [0 < |z| < 2^53]; [canon 0 k] is [+0]. *)
Definition canon (z k : Z) : number :=
  match z with
  | Z0 => S754_zero false
  | _ =>
      let d := (Z.log2 (Z.abs z) + 1)%Z in
      S754_finite (z <? 0)%Z (Z.to_pos (Z.abs z * 2 ^ (53 - d))) (d + k - 53)
  end.

(** The grid exponents for which every mantissa of 53 bits or less gives
    a finite number without rounding. *)
Definition grid_ok (k : Z) : Prop := (-1022 <= k <= 971)%Z.

(** Integers small enough for the tests of circles and boxes to compute
    without rounding. *)
Definition small (z : Z) : Prop := (Z.abs z < 2 ^ 25)%Z.

(** The grid exponents that also keep the squares in range. *)
Definition grid_sq_ok (k : Z) : Prop := (-511 <= k <= 485)%Z.

(** The collider whose fields are the numbers [z * 2^k]. *)
Definition grid_circle (k x y r : Z) : CircleCollider :=
  new_CircleCollider (dyadic x k) (dyadic y k) (dyadic r k).

Definition grid_box (k x y rX rY : Z) : AABBCollider :=
  new_AABBCollider (dyadic x k) (dyadic y k) (dyadic rX k) (dyadic rY k).

(** The real number a JS number stands for (0 for NaN and the infinities,
    which the properties below exclude). *)
Definition to_R (x : number) : Rdefinitions.R :=
  match x with
  | S754_finite s m e =>
      Rdefinitions.Rmult (Rdefinitions.IZR (cond_Zopp s (Z.pos m)))
        (Rfunctions.powerRZ (Rdefinitions.IZR 2) e)
  | _ => Rdefinitions.IZR 0
  end.

(** The euclidean distance between two points, in the reals. *)
Definition euclidean_distance (p q : Point2D) : Rdefinitions.R :=
  let dx := Rdefinitions.Rminus (to_R (_x q)) (to_R (_x p)) in
  let dy := Rdefinitions.Rminus (to_R (_y q)) (to_R (_y p)) in
  R_sqrt.sqrt (Rdefinitions.Rplus (Rdefinitions.Rmult dx dx)
                                  (Rdefinitions.Rmult dy dy)).

(** ** Sample values *)

Definition half : number := dyadic 1 (-1).
Definition two_and_a_half : number := dyadic 5 (-1).
Definition three : number := of_Z 3.

Definition empty_tile : Tile2D := new_Tile2D 0 false false.
Definition wall_tile : Tile2D := new_Tile2D 1 true true.

(** A map without a blocking tile, and a map whose one blocking cell is
    (3, 0). *)
Definition empty_map : TileMap2D := new_TileMap2D (fun _ _ => empty_tile).

Definition one_wall_map : TileMap2D :=
  new_TileMap2D (fun x y =>
    if (x === three) && (y === 0) then wall_tile else empty_tile).

Definition unit_box : AABBCollider := new_AABBCollider 0 0 1 1.
Definition unit_circle : CircleCollider := new_CircleCollider 0 0 1.

Definition quarter : number := dyadic 1 (-2).
Definition five : number := of_Z 5.
Definition ten : number := of_Z 10.

(** The number that the decimal literal [n/10] denotes: the division
    rounds to the nearest number, as reading the literal does. *)
Definition tenths (n : Z) : number := of_Z n / ten.

(** Two overlapping boxes with centres (1.5, 0.6) and (2.0, 0.5). *)
Definition box_P : AABBCollider :=
  new_AABBCollider (tenths 15) (tenths 6) (tenths 5) (tenths 9).
Definition box_Q : AABBCollider :=
  new_AABBCollider 2 (tenths 5) (tenths 7) (tenths 15).

(** The unit box centred at (1.5, 0.25). *)
Definition box_R : AABBCollider :=
  new_AABBCollider (dyadic 3 (-1)) quarter 1 1.

(** A circle of radius 2^-600. *)
Definition tiny_circle : CircleCollider :=
  new_CircleCollider 0 0 (dyadic 1 (-600)).

(** Circles of radius 0.5 and 0.75 whose centres are a little less than
    1.25 apart. *)
Definition circle_S : CircleCollider := new_CircleCollider 0 0 half.
Definition circle_T : CircleCollider :=
  new_CircleCollider (dyadic 5310586299130025 (-55))
                     (dyadic 5590223935480832 (-52)) (dyadic 3 (-2)).

(** A camera of one column at (0.5, 0.5) that looks along (1, 0), with
    the default field of view and range. *)
Definition single_column_camera : RayCamera2D :=
  new_RayCamera2D (new_Point2D half half) (new_Vector2D 1 0) 1 None None.

(** * Properties *)

(** ** NaN is absorbing, and compares false *)

Lemma add_NaN_l (a : number) : NaN + a = NaN.
Proof. reflexivity. Qed.

Lemma add_NaN_r (a : number) : a + NaN = NaN.
Proof. destruct a; reflexivity. Qed.

Lemma sub_NaN_l (a : number) : NaN - a = NaN.
Proof. reflexivity. Qed.

Lemma sub_NaN_r (a : number) : a - NaN = NaN.
Proof. destruct a; reflexivity. Qed.

Lemma mul_NaN_l (a : number) : NaN * a = NaN.
Proof. reflexivity. Qed.

Lemma mul_NaN_r (a : number) : a * NaN = NaN.
Proof. destruct a; reflexivity. Qed.

Lemma div_NaN_l (a : number) : NaN / a = NaN.
Proof. reflexivity. Qed.

Lemma lt_NaN_l (a : number) : (NaN <? a) = false.
Proof. reflexivity. Qed.

Lemma lt_NaN_r (a : number) : (a <? NaN) = false.
Proof. destruct a; reflexivity. Qed.

Lemma le_NaN_l (a : number) : (NaN <=? a) = false.
Proof. reflexivity. Qed.

Lemma le_NaN_r (a : number) : (a <=? NaN) = false.
Proof. destruct a; reflexivity. Qed.

Create Rewrite HintDb nan.
#[local] Hint Rewrite add_NaN_l add_NaN_r sub_NaN_l sub_NaN_r
  mul_NaN_l mul_NaN_r div_NaN_l lt_NaN_l lt_NaN_r le_NaN_l le_NaN_r : nan.

Ltac nan := repeat (progress (autorewrite with nan; cbn [neg SFopp Math_abs SFabs Math_sign]; fold NaN)).

(** ** Binary64 arithmetic keeps numbers valid *)

Section Binary64.

Local Open Scope Z_scope.

Lemma digits2_pos_size (p : positive) : digits2_pos p = Pos.size p.
Proof. induction p; cbn; congruence. Qed.

Lemma Zdigits2_log2 (m : Z) : 0 < m -> Zdigits2 m = Z.log2 m + 1.
Proof.
  destruct m as [|p|p]; try lia. intros _. cbn [Zdigits2].
  rewrite digits2_pos_size.
  destruct p; cbn [Pos.size Z.log2]; lia.
Qed.

Lemma iter_pos_nat {A : Type} (f : A -> A) (p : positive) (x : A) :
  iter_pos f p x = Nat.iter (Pos.to_nat p) f x.
Proof.
  revert x. induction p as [p IH|p IH|]; intros x; cbn [iter_pos].
  - rewrite !IH, Pos2Nat.inj_xI.
    replace (S (2 * Pos.to_nat p))%nat with (Pos.to_nat p + (Pos.to_nat p + 1))%nat by lia.
    rewrite !Nat.iter_add. reflexivity.
  - rewrite !IH, Pos2Nat.inj_xO.
    replace (2 * Pos.to_nat p)%nat with (Pos.to_nat p + Pos.to_nat p)%nat by lia.
    rewrite Nat.iter_add. reflexivity.
  - reflexivity.
Qed.

Lemma shr_1_m (mrs : shr_record) :
  0 <= shr_m mrs -> shr_m (shr_1 mrs) = Z.shiftr (shr_m mrs) 1.
Proof.
  destruct mrs as [m r s]. cbn [shr_m]. intros Hm.
  rewrite <- Z.div2_spec.
  destruct m as [|[p|p|]|p]; try lia; reflexivity.
Qed.

Lemma iter_shr_1_m (k : nat) (mrs : shr_record) :
  0 <= shr_m mrs ->
  shr_m (Nat.iter k shr_1 mrs) = Z.shiftr (shr_m mrs) (Z.of_nat k).
Proof.
  intros Hm. induction k as [|k IH].
  - change (shr_m mrs = Z.shiftr (shr_m mrs) 0). now rewrite Z.shiftr_0_r.
  - rewrite Nat.iter_succ, shr_1_m.
    + rewrite IH, Z.shiftr_shiftr by lia. f_equal. lia.
    + rewrite IH. apply Z.shiftr_nonneg. exact Hm.
Qed.

Lemma shr_spec (mrs : shr_record) (e n : Z) :
  0 <= shr_m mrs ->
  shr_m (fst (shr mrs e n)) = Z.shiftr (shr_m mrs) (Z.max 0 n)
  /\ snd (shr mrs e n) = e + Z.max 0 n.
Proof.
  intros Hm. destruct n as [|p|p]; cbn [shr fst snd].
  - rewrite Z.shiftr_0_r. split; lia.
  - rewrite iter_pos_nat, iter_shr_1_m by exact Hm.
    rewrite positive_nat_Z. split; [f_equal|]; lia.
  - replace (Z.max 0 (Z.neg p)) with 0 by lia.
    rewrite Z.shiftr_0_r. split; lia.
Qed.

Lemma shr_m_of_loc (m : Z) (l : location) : shr_m (shr_record_of_loc m l) = m.
Proof. destruct l as [|[]]; reflexivity. Qed.

Lemma shr_fexp_spec (m e : Z) (l : location) :
  0 <= m ->
  let n := Z.max 0 (fexp prec emax (Zdigits2 m + e) - e) in
  shr_m (fst (shr_fexp prec emax m e l)) = Z.shiftr m n
  /\ snd (shr_fexp prec emax m e l) = e + n.
Proof.
  intros Hm n. unfold shr_fexp.
  pose proof (shr_spec (shr_record_of_loc m l) e
                (fexp prec emax (Zdigits2 m + e) - e)) as H.
  rewrite shr_m_of_loc in H. apply H. exact Hm.
Qed.

Lemma fexp_eq (x : Z) : fexp prec emax x = Z.max (x - 53) (-1074).
Proof. reflexivity. Qed.

(** After the shift the mantissa is zero or canonical. *)
Lemma shr_fexp_canonical (m e : Z) (l : location) :
  0 < m -> e <= fexp prec emax (Zdigits2 m + e) ->
  let m' := shr_m (fst (shr_fexp prec emax m e l)) in
  let e' := snd (shr_fexp prec emax m e l) in
  0 <= m'
  /\ (0 < m' -> fexp prec emax (Zdigits2 m' + e') = e')
  /\ (m' = 0 -> e' = -1074).
Proof.
  intros Hm He m' e'.
  destruct (shr_fexp_spec m e l) as [Hm' He']; [lia|].
  fold m' in Hm'. fold e' in He'.
  rewrite (Zdigits2_log2 m Hm) in He, Hm', He'.
  rewrite fexp_eq in He, Hm', He'.
  set (n := Z.max 0 (Z.max (Z.log2 m + 1 + e - 53) (-1074) - e)) in *.
  assert (Hn : 0 <= n) by lia.
  pose proof (Z.log2_nonneg m) as HL.
  split; [rewrite Hm'; apply Z.shiftr_nonneg; lia|].
  split.
  - intros Hpos. rewrite (Zdigits2_log2 m' Hpos), fexp_eq.
    assert (Z.log2 m' = Z.max 0 (Z.log2 m - n))
      by (rewrite Hm'; apply Z.log2_shiftr; exact Hm).
    assert (n <= Z.log2 m).
    { destruct (Z.le_gt_cases n (Z.log2 m)) as [|Hgt]; [assumption|].
      assert (Z.shiftr m n = 0) by (apply Z.shiftr_eq_0; lia). lia. }
    lia.
  - intros Hzero.
    assert (Z.log2 m < n).
    { destruct (Z.le_gt_cases n (Z.log2 m)) as [Hle|]; [|assumption].
      assert (Z.shiftr m n <> 0).
      { rewrite Z.shiftr_eq_0_iff. lia. }
      lia. }
    lia.
Qed.

Lemma round_nearest_even_cases (m : Z) (l : location) :
  round_nearest_even m l = m \/ round_nearest_even m l = m + 1.
Proof.
  destruct l as [|[]]; cbn [round_nearest_even]; auto.
  destruct (Z.even m); auto.
Qed.

(** Rounding a positive mantissa that is not too short yields a valid
    number. *)
Lemma binary_round_aux_valid (s : bool) (m e : Z) (l : location) :
  0 < m -> e <= fexp prec emax (Zdigits2 m + e) ->
  valid (binary_round_aux prec emax s m e l) = true.
Proof.
  intros Hm He. unfold binary_round_aux.
  destruct (shr_fexp_canonical m e l Hm He) as (Hm1 & Hcan1 & Hzero1).
  destruct (shr_fexp prec emax m e l) as [mrs1 e1]. cbn [fst snd] in *.
  set (m1 := shr_m mrs1) in *.
  set (m2 := round_nearest_even m1 (loc_of_shr_record mrs1)).
  assert (Hm2 : m2 = m1 \/ m2 = m1 + 1) by apply round_nearest_even_cases.
  destruct (Z.eq_dec m2 0) as [Hz|Hnz].
  - rewrite Hz.
    destruct (shr_fexp_spec 0 e1 loc_Exact) as [H0 _]; [lia|].
    destruct (shr_fexp prec emax 0 e1 loc_Exact) as [mrs2 e2]. cbn [fst snd] in *.
    rewrite H0, Z.shiftr_0_l. reflexivity.
  - assert (Hpos2 : 0 < m2) by lia.
    assert (He2 : e1 <= fexp prec emax (Zdigits2 m2 + e1)).
    { rewrite (Zdigits2_log2 m2 Hpos2), fexp_eq.
      destruct (Z.eq_dec m1 0) as [Hz1|Hnz1].
      - specialize (Hzero1 Hz1). lia.
      - assert (Hpos1 : 0 < m1) by lia.
        specialize (Hcan1 Hpos1).
        rewrite (Zdigits2_log2 m1 Hpos1), fexp_eq in Hcan1.
        assert (Z.log2 m1 <= Z.log2 m2) by (apply Z.log2_le_mono; lia).
        lia. }
    destruct (shr_fexp_canonical m2 e1 loc_Exact Hpos2 He2) as (Hm3 & Hcan3 & _).
    destruct (shr_fexp prec emax m2 e1 loc_Exact) as [mrs2 e2]. cbn [fst snd] in *.
    destruct (shr_m mrs2) as [|p|p] eqn:Hp; try reflexivity.
    destruct (e2 <=? emax - prec) eqn:Hle; [|reflexivity].
    cbn [valid valid_binary]. unfold valid, valid_binary, bounded, canonical_mantissa.
    rewrite Hle, andb_true_r. apply Z.eqb_eq.
    apply Hcan3. lia.
Qed.

Lemma digits2_pos_iter_xO (m d : positive) :
  Z.pos (digits2_pos (Pos.iter xO m d)) = Z.pos (digits2_pos m) + Z.pos d.
Proof.
  induction d as [|d IH] using Pos.peano_ind.
  - cbn [Pos.iter digits2_pos]. lia.
  - rewrite Pos.iter_succ. cbn [digits2_pos]. lia.
Qed.

Lemma binary_round_valid (s : bool) (m : positive) (e : Z) :
  valid (binary_round prec emax s m e) = true.
Proof.
  unfold binary_round, shl_align.
  set (e' := fexp prec emax (Z.pos (digits2_pos m) + e)).
  destruct (e' - e) as [|d|d] eqn:Hd;
    apply binary_round_aux_valid; try lia; cbn [Zdigits2].
  - fold e'. lia.
  - fold e'. lia.
  - rewrite digits2_pos_iter_xO.
    replace (Z.pos (digits2_pos m) + Z.pos d + e')
      with (Z.pos (digits2_pos m) + e) by lia.
    fold e'. lia.
Qed.

Lemma binary_normalize_valid (m e : Z) (szero : bool) :
  valid (binary_normalize prec emax m e szero) = true.
Proof.
  destruct m; cbn [binary_normalize]; [reflexivity | apply binary_round_valid ..].
Qed.

Lemma add_valid (a b : number) :
  valid a = true -> valid b = true -> valid (add a b) = true.
Proof.
  intros Ha Hb.
  destruct a as [sa|sa| |sa ma ea], b as [sb|sb| |sb mb eb];
    try destruct sa; try destruct sb; unfold add; cbn [SFadd];
    try reflexivity; try assumption.
  all: apply binary_normalize_valid.
Qed.

Lemma sub_valid (a b : number) :
  valid a = true -> valid b = true -> valid (sub a b) = true.
Proof.
  intros Ha Hb.
  destruct a as [sa|sa| |sa ma ea], b as [sb|sb| |sb mb eb];
    try destruct sa; try destruct sb; unfold sub; cbn [SFsub];
    try reflexivity; try assumption.
  all: apply binary_normalize_valid.
Qed.

Lemma Math_abs_valid (a : number) : valid a = true -> valid (Math_abs a) = true.
Proof. destruct a; auto. Qed.

Lemma neg_valid (a : number) : valid a = true -> valid (neg a) = true.
Proof. destruct a; auto. Qed.

Lemma pos_mul_pow2_52 (m : positive) :
  (m * 4503599627370496)%positive = Pos.iter xO m 52.
Proof. rewrite Pos.mul_comm. reflexivity. Qed.

(** Multiplying a valid number by 1 or -1 is exact. *)
Lemma mul_unit_finite (s' : bool) (m : positive) (e : Z) :
  bounded prec emax m e = true ->
  binary_round_aux prec emax s' (Z.pos (m * 4503599627370496)) (e + -52) loc_Exact
  = S754_finite s' m e.
Proof.
  intros Hb. unfold bounded, canonical_mantissa in Hb.
  apply andb_true_iff in Hb. destruct Hb as [Hc Hle]. apply Z.eqb_eq in Hc.
  unfold binary_round_aux.
  assert (H1 : shr_fexp prec emax (Z.pos (m * 4503599627370496)) (e + -52) loc_Exact
               = ({| shr_m := Z.pos m; shr_r := false; shr_s := false |}, e)).
  { unfold shr_fexp. cbn [Zdigits2]. rewrite pos_mul_pow2_52, digits2_pos_iter_xO.
    replace (Z.pos (digits2_pos m) + 52 + (e + -52))
      with (Z.pos (digits2_pos m) + e) by lia.
    rewrite Hc. replace (e - (e + -52)) with 52 by lia.
    cbn [shr shr_record_of_loc].
    replace (e + -52 + 52) with e by lia. reflexivity. }
  rewrite H1. cbn [shr_m loc_of_shr_record round_nearest_even].
  assert (H2 : shr_fexp prec emax (Z.pos m) e loc_Exact
               = ({| shr_m := Z.pos m; shr_r := false; shr_s := false |}, e)).
  { unfold shr_fexp. cbn [Zdigits2]. rewrite Hc, Z.sub_diag. reflexivity. }
  rewrite H2. cbn [shr_m]. now rewrite Hle.
Qed.

Lemma mul_one_r (a : number) :
  valid a = true -> mul a (of_Z 1) = a.
Proof.
  intros Ha. destruct a as [s|s| |s m e]; try reflexivity; try (destruct s; reflexivity).
  change (of_Z 1) with (S754_finite false 4503599627370496 (-52)).
  unfold mul; cbn [SFmul]. rewrite mul_unit_finite by exact Ha.
  now rewrite xorb_false_r.
Qed.

Lemma mul_minus_one_r (a : number) :
  valid a = true -> mul a (of_Z (-1)) = neg a.
Proof.
  intros Ha. destruct a as [s|s| |s m e]; try reflexivity; try (destruct s; reflexivity).
  change (of_Z (-1)) with (S754_finite true 4503599627370496 (-52)).
  unfold mul; cbn [SFmul]. rewrite mul_unit_finite by exact Ha.
  now rewrite xorb_true_r.
Qed.

End Binary64.

(** ** Numbers on a dyadic grid compute exactly *)

Section Grid.

Local Open Scope Z_scope.

Lemma shr_1_even (m : Z) :
  0 < m -> Z.even m = true ->
  shr_1 {| shr_m := m; shr_r := false; shr_s := false |}
  = {| shr_m := m / 2; shr_r := false; shr_s := false |}.
Proof.
  intros Hm He. destruct m as [|[p|p|]|p]; try lia; try discriminate.
  cbn [shr_1 orb]. f_equal.
  rewrite Pos2Z.inj_xO, Z.mul_comm, Z.div_mul by lia. reflexivity.
Qed.

Lemma iter_shr_1_exact (t : nat) (n j : Z) :
  0 < n -> Z.of_nat t <= j ->
  Nat.iter t shr_1 {| shr_m := n * 2 ^ j; shr_r := false; shr_s := false |}
  = {| shr_m := n * 2 ^ (j - Z.of_nat t); shr_r := false; shr_s := false |}.
Proof.
  intros Hn. induction t as [|t IH]; intros Ht.
  - cbn [Nat.iter]. now rewrite Z.sub_0_r.
  - rewrite Nat.iter_succ, IH by lia.
    assert (Hj : j - Z.of_nat t = Z.succ (j - Z.of_nat (S t))) by lia.
    rewrite Hj, Z.pow_succ_r by lia.
    rewrite shr_1_even.
    + f_equal. replace (n * (2 * 2 ^ (j - Z.of_nat (S t))))
        with (n * 2 ^ (j - Z.of_nat (S t)) * 2) by ring.
      apply Z.div_mul. lia.
    + assert (0 < 2 ^ (j - Z.of_nat (S t))) by (apply Z.pow_pos_nonneg; lia). nia.
    + rewrite Z.even_mul. replace (Z.even (2 * 2 ^ (j - Z.of_nat (S t)))) with true.
      * apply orb_true_r.
      * now rewrite Z.even_mul.
Qed.

Lemma shr_exact (n j e t : Z) :
  0 < n -> 0 <= t <= j ->
  shr {| shr_m := n * 2 ^ j; shr_r := false; shr_s := false |} e t
  = ({| shr_m := n * 2 ^ (j - t); shr_r := false; shr_s := false |}, e + t).
Proof.
  intros Hn Ht. destruct t as [|p|p]; try lia; cbn [shr].
  - now rewrite Z.sub_0_r, Z.add_0_r.
  - rewrite iter_pos_nat, iter_shr_1_exact by lia.
    now rewrite positive_nat_Z.
Qed.

Lemma Zdigits2_mul_pow2 (n j : Z) :
  0 < n -> 0 <= j -> Zdigits2 (n * 2 ^ j) = Z.log2 n + 1 + j.
Proof.
  intros Hn Hj.
  assert (0 < 2 ^ j) by (apply Z.pow_pos_nonneg; lia).
  rewrite Zdigits2_log2 by nia.
  rewrite Z.log2_mul_pow2 by lia. lia.
Qed.

(** Rounding a mantissa whose low bits are zero only drops zeros. *)
Lemma binary_round_aux_exact (s : bool) (m : positive) (n j e : Z) :
  let d := Z.log2 n + 1 in
  0 < n -> 0 <= j -> Z.pos m = n * 2 ^ j ->
  53 - d <= j -> d <= 53 -> -1074 <= d + j + e - 53 <= 971 ->
  binary_round_aux prec emax s (Z.pos m) e loc_Exact
  = S754_finite s (Z.to_pos (n * 2 ^ (53 - d))) (d + j + e - 53).
Proof.
  intros d Hn Hj Hm Hdj Hd Hr.
  unfold binary_round_aux, shr_fexp. rewrite Hm.
  rewrite Zdigits2_mul_pow2 by assumption. fold d.
  rewrite fexp_eq. cbn [shr_record_of_loc].
  replace (Z.max (d + j + e - 53) (-1074) - e) with (d + j - 53) by lia.
  rewrite shr_exact by lia.
  cbn [shr_m loc_of_shr_record round_nearest_even].
  replace (j - (d + j - 53)) with (53 - d) by lia.
  rewrite Zdigits2_mul_pow2 by lia. fold d.
  rewrite fexp_eq.
  replace (Z.max (d + (53 - d) + (e + (d + j - 53)) - 53) (-1074)
           - (e + (d + j - 53))) with 0 by lia.
  cbn [shr shr_m].
  assert (Hpos : 0 < n * 2 ^ (53 - d)).
  { assert (0 < 2 ^ (53 - d)) by (apply Z.pow_pos_nonneg; lia). nia. }
  destruct (n * 2 ^ (53 - d)) as [|q|q] eqn:Eq; try lia.
  replace (e + (d + j - 53) <=? emax - prec) with true
    by (symmetry; apply Z.leb_le; unfold emax, prec; lia).
  cbn [Z.to_pos]. f_equal. lia.
Qed.

Lemma Zpos_iter_xO (m d : positive) :
  Z.pos (Pos.iter xO m d) = Z.pos m * 2 ^ Z.pos d.
Proof.
  induction d as [|d IH] using Pos.peano_ind.
  - cbn [Pos.iter]. lia.
  - rewrite Pos.iter_succ, Pos2Z.inj_xO, IH, Pos2Z.inj_succ, Z.pow_succ_r by lia.
    ring.
Qed.

Lemma binary_round_canon (s : bool) (m : positive) (n j k : Z) :
  0 < n < 2 ^ 53 -> 0 <= j -> Z.pos m = n * 2 ^ j -> grid_ok k ->
  binary_round prec emax s m (k - j)
  = S754_finite s (Z.to_pos (n * 2 ^ (53 - (Z.log2 n + 1))))
      (Z.log2 n + 1 + k - 53).
Proof.
  intros Hn Hj Hm Hk. unfold grid_ok in Hk.
  assert (Hd : 0 <= Z.log2 n < 53).
  { split; [apply Z.log2_nonneg|]. apply Z.log2_lt_pow2; lia. }
  set (d := Z.log2 n + 1) in *.
  unfold binary_round, shl_align.
  change (Z.pos (digits2_pos m)) with (Zdigits2 (Z.pos m)).
  rewrite Hm, Zdigits2_mul_pow2 by lia. fold d. rewrite fexp_eq.
  replace (Z.max (d + j + (k - j) - 53) (-1074) - (k - j)) with (d - 53 + j) by lia.
  destruct (d - 53 + j) as [|p|p] eqn:Ep.
  - rewrite (binary_round_aux_exact s m n j (k - j)); fold d; try lia.
    f_equal. lia.
  - rewrite (binary_round_aux_exact s m n j (k - j)); fold d; try lia.
    f_equal. lia.
  - rewrite (binary_round_aux_exact s (Pos.iter xO m p) n (53 - d)
               (Z.max (d + j + (k - j) - 53) (-1074))); fold d; try lia.
    + f_equal. lia.
    + rewrite Zpos_iter_xO, Hm.
      replace (53 - d) with (j + Z.pos p) by lia.
      rewrite Z.pow_add_r by lia. ring.
Qed.

(** A multiple [z * 2^j] of a grid step, given with the exponent
    [k - j], normalizes to [canon z k]. *)
Lemma binary_normalize_canon (z j k : Z) :
  Z.abs z < 2 ^ 53 -> 0 <= j -> grid_ok k ->
  binary_normalize prec emax (z * 2 ^ j) (k - j) false = canon z k.
Proof.
  intros Hz Hj Hk.
  assert (H2 : 0 < 2 ^ j) by (apply Z.pow_pos_nonneg; lia).
  destruct z as [|p|p].
  - reflexivity.
  - destruct (Z.pos p * 2 ^ j) as [|q|q] eqn:Eq; try lia.
    cbn [binary_normalize canon Z.abs].
    rewrite (binary_round_canon false q (Z.pos p) j k); try lia; try assumption.
    reflexivity.
  - destruct (Z.neg p * 2 ^ j) as [|q|q] eqn:Eq; try lia.
    cbn [binary_normalize canon Z.abs].
    rewrite (binary_round_canon true q (Z.pos p) j k); try lia; try assumption.
    reflexivity.
Qed.

Lemma dyadic_canon (z k : Z) :
  Z.abs z < 2 ^ 53 -> grid_ok k -> dyadic z k = canon z k.
Proof.
  intros Hz Hk. unfold dyadic.
  rewrite <- (binary_normalize_canon z 0 k) by (try assumption; lia).
  now rewrite Z.mul_1_r, Z.sub_0_r.
Qed.

Lemma canon_finite (z k : Z) :
  z <> 0 ->
  canon z k
  = S754_finite (z <? 0)
      (Z.to_pos (Z.abs z * 2 ^ (53 - (Z.log2 (Z.abs z) + 1))))
      (Z.log2 (Z.abs z) + 1 + k - 53).
Proof. destruct z; [contradiction|reflexivity..]. Qed.

Lemma canon_mantissa (z : Z) :
  0 < Z.abs z < 2 ^ 53 ->
  Z.pos (Z.to_pos (Z.abs z * 2 ^ (53 - (Z.log2 (Z.abs z) + 1))))
  = Z.abs z * 2 ^ (53 - (Z.log2 (Z.abs z) + 1)).
Proof.
  intros Hz.
  assert (Z.log2 (Z.abs z) < 53) by (apply Z.log2_lt_pow2; lia).
  assert (0 < 2 ^ (53 - (Z.log2 (Z.abs z) + 1)))
    by (apply Z.pow_pos_nonneg; lia).
  apply Z2Pos.id. nia.
Qed.

Lemma shl_align_value (m : positive) (e e' : Z) :
  e' <= e -> Z.pos (fst (shl_align m e e')) = Z.pos m * 2 ^ (e - e').
Proof.
  intros He. unfold shl_align.
  destruct (e' - e) as [|p|p] eqn:Ep; try lia; cbn [fst].
  - replace (e - e') with 0 by lia. lia.
  - rewrite Zpos_iter_xO. f_equal. f_equal. lia.
Qed.

(** The aligned mantissa of a canonical number, signed. *)
Lemma canon_aligned (z k ez : Z) (s : bool) (m : positive) (e : Z) :
  0 < Z.abs z < 2 ^ 53 -> canon z k = S754_finite s m e -> ez <= e ->
  e <= k /\ cond_Zopp s (Z.pos (fst (shl_align m e ez))) = z * 2 ^ (k - ez).
Proof.
  intros Hz Hc He.
  rewrite canon_finite in Hc by lia. injection Hc as <- <- <-.
  pose proof (Z.log2_nonneg (Z.abs z)) as HL.
  assert (HL2 : Z.log2 (Z.abs z) < 53) by (apply Z.log2_lt_pow2; lia).
  split; [lia|].
  rewrite shl_align_value by exact He.
  rewrite canon_mantissa by exact Hz.
  rewrite <- Z.mul_assoc, <- Z.pow_add_r by lia.
  replace (53 - (Z.log2 (Z.abs z) + 1) + (Z.log2 (Z.abs z) + 1 + k - 53 - ez))
    with (k - ez) by lia.
  destruct (z <? 0) eqn:Es; cbn [cond_Zopp].
  - apply Z.ltb_lt in Es. rewrite Z.abs_neq by lia. ring.
  - apply Z.ltb_ge in Es. rewrite Z.abs_eq by lia. ring.
Qed.

Lemma canon_add (a b k : Z) :
  Z.abs a < 2 ^ 53 -> Z.abs b < 2 ^ 53 -> Z.abs (a + b) < 2 ^ 53 ->
  grid_ok k ->
  add (canon a k) (canon b k) = canon (a + b) k.
Proof.
  intros Ha Hb Hab Hk.
  destruct (Z.eq_dec a 0) as [->|Hna].
  { cbn [canon Z.add]. destruct (canon b k) as [[]| | |] eqn:E; try reflexivity;
      destruct b; discriminate. }
  destruct (Z.eq_dec b 0) as [->|Hnb].
  { rewrite Z.add_0_r. cbn [canon]. destruct (canon a k) as [[]| | |] eqn:E;
      try reflexivity; destruct a; try discriminate; contradiction. }
  destruct (canon a k) as [| | |sa ma ea] eqn:Ea;
    try (rewrite canon_finite in Ea by assumption; discriminate).
  destruct (canon b k) as [| | |sb mb eb] eqn:Eb;
    try (rewrite canon_finite in Eb by assumption; discriminate).
  unfold add. cbn [SFadd].
  destruct (canon_aligned a k (Z.min ea eb) sa ma ea) as [Hea ->];
    try assumption; try lia.
  destruct (canon_aligned b k (Z.min ea eb) sb mb eb) as [Heb ->];
    try assumption; try lia.
  rewrite <- Z.mul_add_distr_r.
  replace (Z.min ea eb) with (k - (k - Z.min ea eb)) at 2 by lia.
  apply binary_normalize_canon; try assumption. lia.
Qed.

Lemma canon_sub (a b k : Z) :
  Z.abs a < 2 ^ 53 -> Z.abs b < 2 ^ 53 -> Z.abs (a - b) < 2 ^ 53 ->
  grid_ok k ->
  sub (canon a k) (canon b k) = canon (a - b) k.
Proof.
  intros Ha Hb Hab Hk.
  destruct (Z.eq_dec b 0) as [->|Hnb].
  { rewrite Z.sub_0_r. cbn [canon]. destruct (canon a k) as [[]| | |] eqn:E;
      try reflexivity; destruct a; discriminate. }
  destruct (canon b k) as [| | |sb mb eb] eqn:Eb;
    try (rewrite canon_finite in Eb by assumption; discriminate).
  destruct (Z.eq_dec a 0) as [->|Hna].
  { cbn [canon]. unfold sub. cbn [SFsub]. rewrite canon_finite in * by lia.
    injection Eb as <- <- <-. rewrite Z.abs_opp. f_equal.
    destruct b; try contradiction; reflexivity. }
  destruct (canon a k) as [| | |sa ma ea] eqn:Ea;
    try (rewrite canon_finite in Ea by assumption; discriminate).
  unfold sub. cbn [SFsub].
  destruct (canon_aligned a k (Z.min ea eb) sa ma ea) as [Hea ->];
    try assumption; try lia.
  destruct (canon_aligned b k (Z.min ea eb) sb mb eb) as [Heb ->];
    try assumption; try lia.
  rewrite <- Z.mul_sub_distr_r.
  replace (Z.min ea eb) with (k - (k - Z.min ea eb)) at 2 by lia.
  apply binary_normalize_canon; try assumption. lia.
Qed.

Lemma canon_sq (a k : Z) :
  a * a < 2 ^ 53 -> grid_ok k -> grid_ok (2 * k) ->
  mul (canon a k) (canon a k) = canon (a * a) (2 * k).
Proof.
  intros Ha Hk Hk2.
  destruct (Z.eq_dec a 0) as [->|Hna]; [reflexivity|].
  assert (Habs : 0 < Z.abs a < 2 ^ 53) by nia.
  assert (Hsq : 0 < a * a) by nia.
  pose proof (Z.log2_nonneg (Z.abs a)) as HL.
  assert (HL2 : Z.log2 (Z.abs a) < 53) by (apply Z.log2_lt_pow2; lia).
  assert (HLs : Z.log2 (a * a) < 53) by (apply Z.log2_lt_pow2; lia).
  assert (HLm : 2 * Z.log2 (Z.abs a) <= Z.log2 (a * a)).
  { replace (a * a) with (Z.abs a * Z.abs a) by nia.
    pose proof (Z.log2_mul_below (Z.abs a) (Z.abs a)). lia. }
  rewrite (canon_finite a) by assumption.
  rewrite (canon_finite (a * a)) by lia.
  unfold mul. cbn [SFmul]. rewrite xorb_nilpotent.
  replace (a * a <? 0) with false by (symmetry; apply Z.ltb_ge; lia).
  rewrite (Z.abs_eq (a * a)) by lia.
  set (d := Z.log2 (Z.abs a) + 1) in *.
  rewrite (binary_round_aux_exact false _ (a * a) (2 * (53 - d)) (d + k - 53 + (d + k - 53)));
    try lia.
  - f_equal. lia.
  - rewrite Pos2Z.inj_mul. unfold d. rewrite canon_mantissa by exact Habs.
    fold d. replace (2 * (53 - d)) with ((53 - d) + (53 - d)) by lia.
    rewrite Z.pow_add_r by lia. nia.
  - unfold grid_ok in Hk2. lia.
Qed.

Lemma canon_abs (z k : Z) : Math_abs (canon z k) = canon (Z.abs z) k.
Proof.
  destruct z as [|p|p]; cbn [canon Math_abs SFabs Z.abs]; reflexivity.
Qed.

Lemma canon_neg (z k : Z) : z <> 0 -> neg (canon z k) = canon (- z) k.
Proof.
  intros Hz. rewrite !canon_finite by lia. cbn [neg SFopp].
  rewrite Z.abs_opp. f_equal. destruct z; try contradiction; reflexivity.
Qed.

Lemma canon_valid (z k : Z) :
  Z.abs z < 2 ^ 53 -> grid_ok k -> valid (canon z k) = true.
Proof.
  intros Hz Hk. rewrite <- dyadic_canon by assumption.
  apply binary_normalize_valid.
Qed.

Lemma canon_le_0 (z k : Z) : le (canon z k) (S754_zero false) = (z <=? 0).
Proof. destruct z; reflexivity. Qed.

Lemma canon_lt_0 (z k : Z) : lt (canon z k) (S754_zero false) = (z <? 0).
Proof. destruct z; reflexivity. Qed.

Lemma canon_gt_0 (z k : Z) : lt (S754_zero false) (canon z k) = (0 <? z).
Proof. destruct z; reflexivity. Qed.

Lemma canon_eq_0 (z k : Z) : strict_eq (canon z k) (S754_zero false) = (z =? 0).
Proof. destruct z; reflexivity. Qed.

Lemma canon_sign (z k : Z) :
  Math_sign (canon z k)
  = if z =? 0 then S754_zero false else if z <? 0 then of_Z (-1) else of_Z 1.
Proof. destruct z; reflexivity. Qed.

(** Order of two positive numbers of the grid. *)
Lemma canon_compare_pos (a b k : Z) :
  0 < a < 2 ^ 53 -> 0 < b < 2 ^ 53 ->
  SFcompare (canon a k) (canon b k) = Some (a ?= b).
Proof.
  intros Ha Hb.
  rewrite (canon_finite a), (canon_finite b) by lia.
  rewrite (Z.abs_eq a), (Z.abs_eq b) by lia.
  replace (a <? 0) with false by (symmetry; apply Z.ltb_ge; lia).
  replace (b <? 0) with false by (symmetry; apply Z.ltb_ge; lia).
  cbn [SFcompare]. f_equal.
  pose proof (Z.log2_nonneg a) as HLa. pose proof (Z.log2_nonneg b) as HLb.
  assert (HLa2 : Z.log2 a < 53) by (apply Z.log2_lt_pow2; lia).
  assert (HLb2 : Z.log2 b < 53) by (apply Z.log2_lt_pow2; lia).
  pose proof (Z.log2_spec a (proj1 Ha)) as Sa.
  pose proof (Z.log2_spec b (proj1 Hb)) as Sb.
  destruct (Z.compare_spec (Z.log2 a + 1 + k - 53) (Z.log2 b + 1 + k - 53))
    as [He|He|He].
  - assert (HL : Z.log2 a = Z.log2 b) by lia. rewrite HL.
    change (Pos.compare_cont Eq ?x ?y) with (Pos.compare x y).
    assert (H2 : 0 < 2 ^ (53 - (Z.log2 b + 1))) by (apply Z.pow_pos_nonneg; lia).
    rewrite <- Z2Pos.inj_compare by nia.
    destruct (Z.compare_spec a b) as [Hc|Hc|Hc].
    + subst b. apply Z.compare_refl.
    + apply Z.compare_lt_iff. nia.
    + apply Z.compare_gt_iff. nia.
  - symmetry. apply Z.compare_lt_iff.
    assert (Z.log2 a + 1 <= Z.log2 b) by lia.
    assert (2 ^ (Z.log2 a + 1) <= 2 ^ Z.log2 b) by (apply Z.pow_le_mono_r; lia).
    replace (Z.succ (Z.log2 a)) with (Z.log2 a + 1) in Sa by lia. lia.
  - symmetry. apply Z.compare_gt_iff.
    assert (Z.log2 b + 1 <= Z.log2 a) by lia.
    assert (2 ^ (Z.log2 b + 1) <= 2 ^ Z.log2 a) by (apply Z.pow_le_mono_r; lia).
    replace (Z.succ (Z.log2 b)) with (Z.log2 b + 1) in Sb by lia. lia.
Qed.

(** Order of two numbers of the grid that are not negative. *)
Lemma canon_compare_nonneg (a b k : Z) :
  0 <= a < 2 ^ 53 -> 0 <= b < 2 ^ 53 ->
  SFcompare (canon a k) (canon b k) = Some (a ?= b).
Proof.
  intros Ha Hb.
  destruct (Z.eq_dec a 0) as [->|Hna], (Z.eq_dec b 0) as [->|Hnb].
  - reflexivity.
  - rewrite (canon_finite b) by lia. cbn [canon SFcompare].
    replace (b <? 0) with false by (symmetry; apply Z.ltb_ge; lia).
    f_equal. symmetry. apply Z.compare_lt_iff. lia.
  - rewrite (canon_finite a) by lia. cbn [canon SFcompare].
    replace (a <? 0) with false by (symmetry; apply Z.ltb_ge; lia).
    f_equal. symmetry. apply Z.compare_gt_iff. lia.
  - apply canon_compare_pos; lia.
Qed.

Lemma canon_lt_nonneg (a b k : Z) :
  0 <= a < 2 ^ 53 -> 0 <= b < 2 ^ 53 ->
  lt (canon a k) (canon b k) = (a <? b).
Proof.
  intros Ha Hb. unfold lt, SFltb, Z.ltb.
  now rewrite canon_compare_nonneg.
Qed.

Lemma grid_sq_ok_grid_ok (k : Z) :
  grid_sq_ok k -> grid_ok k /\ grid_ok (2 * k).
Proof. unfold grid_sq_ok, grid_ok. lia. Qed.

Lemma small_bound (z : Z) : small z -> Z.abs z < 2 ^ 53.
Proof. unfold small. lia. Qed.

Lemma sq_bound (u : Z) : Z.abs u < 2 ^ 26 -> 0 <= u * u < 2 ^ 52.
Proof.
  intros Hu. rewrite <- Z.abs_square.
  assert (H0 : 0 <= Z.abs u) by apply Z.abs_nonneg.
  split; [now apply Z.mul_nonneg_nonneg|].
  change (2 ^ 52) with (2 ^ 26 * 2 ^ 26).
  now apply Z.mul_lt_mono_nonneg.
Qed.

(** [collision] on a grid is the comparison of the exact squares. *)
Lemma CircleCollider_collision_grid (k xa ya ra xb yb rb : Z) :
  grid_sq_ok k ->
  small xa -> small ya -> small ra -> small xb -> small yb -> small rb ->
  CircleCollider_collision (grid_circle k xa ya ra) (grid_circle k xb yb rb)
  = ((xb - xa) * (xb - xa) + (yb - ya) * (yb - ya)
     <? (ra + rb) * (ra + rb)).
Proof.
  intros Hk Hxa Hya Hra Hxb Hyb Hrb.
  destruct (grid_sq_ok_grid_ok k Hk) as [Hk1 Hk2].
  unfold small in *.
  unfold CircleCollider_collision, Point2D_distanceTo2, grid_circle,
    new_CircleCollider.
  cbn [_x _y _radius circle_point]. cbv zeta.
  rewrite !dyadic_canon by (try assumption; lia).
  change (JS.sub ?a ?b) with (sub a b).
  rewrite !canon_sub by (try assumption; lia).
  change (JS.add (canon ra k) (canon rb k)) with (add (canon ra k) (canon rb k)).
  rewrite (canon_add ra rb) by (try assumption; lia).
  change (JS.mul ?a ?b) with (mul a b).
  assert (B1 := sq_bound (xb - xa) ltac:(lia)).
  assert (B2 := sq_bound (yb - ya) ltac:(lia)).
  assert (B3 := sq_bound (ra + rb) ltac:(lia)).
  rewrite !canon_sq by (try assumption; lia).
  change (JS.add ?a ?b) with (add a b).
  rewrite canon_add by (try assumption; lia).
  apply canon_lt_nonneg; lia.
Qed.

End Grid.

(** ** The real value of a number of the grid *)

Section RealDistance.
Import Reals Lra.
Local Open Scope R_scope.

Lemma IZR_pow2 (n : Z) : (0 <= n)%Z -> IZR (2 ^ n) = powerRZ 2 n.
Proof.
  intros Hn. destruct n as [|p|p]; [reflexivity| |lia].
  cbn [powerRZ]. rewrite pow_IZR. now rewrite positive_nat_Z.
Qed.

Lemma to_R_canon (z k : Z) :
  (Z.abs z < 2 ^ 53)%Z -> to_R (canon z k) = IZR z * powerRZ 2 k.
Proof.
  intros Hz. unfold canon. destruct z as [|p|p].
  - cbn. ring.
  - set (d := (Z.log2 (Z.abs (Z.pos p)) + 1)%Z).
    assert (Hd : (0 <= 53 - d)%Z).
    { subst d. cbn [Z.abs] in *.
      assert (Z.log2 (Z.pos p) < 53)%Z by (apply Z.log2_lt_pow2; lia). lia. }
    cbn [to_R Z.ltb Z.compare cond_Zopp Z.abs].
    rewrite Z2Pos.id by (cbn [Z.abs]; apply Z.mul_pos_pos; [lia | apply Z.pow_pos_nonneg; lia]).
    rewrite mult_IZR, IZR_pow2 by exact Hd.
    rewrite Rmult_assoc, <- powerRZ_add by lra.
    f_equal. f_equal. lia.
  - set (d := (Z.log2 (Z.abs (Z.neg p)) + 1)%Z).
    assert (Hd : (0 <= 53 - d)%Z).
    { subst d. cbn [Z.abs] in *.
      assert (Z.log2 (Z.pos p) < 53)%Z by (apply Z.log2_lt_pow2; lia). lia. }
    cbn [to_R Z.ltb Z.compare cond_Zopp Z.abs].
    rewrite Z2Pos.id by (apply Z.mul_pos_pos; [lia | apply Z.pow_pos_nonneg; lia]).
    rewrite opp_IZR, mult_IZR, IZR_pow2 by exact Hd.
    change (Z.neg p) with (- Z.pos p)%Z. rewrite opp_IZR.
    rewrite Ropp_mult_distr_l_reverse, Ropp_mult_distr_l_reverse.
    rewrite Rmult_assoc, <- powerRZ_add by lra.
    f_equal. f_equal. f_equal. lia.
Qed.

Lemma to_R_dyadic (z k : Z) :
  (Z.abs z < 2 ^ 53)%Z -> grid_ok k -> to_R (dyadic z k) = IZR z * powerRZ 2 k.
Proof. intros Hz Hk. rewrite dyadic_canon by assumption. now apply to_R_canon. Qed.

Lemma sqrt_lt_iff (n s : Z) :
  (0 <= n)%Z -> (0 <= s)%Z -> (sqrt (IZR n) < IZR s <-> (n < s * s)%Z).
Proof.
  intros Hn Hs.
  assert (Rn : 0 <= IZR n) by now apply IZR_le.
  assert (Rs : 0 <= IZR s) by now apply IZR_le.
  split; intros H.
  - apply lt_IZR. rewrite mult_IZR.
    rewrite <- (sqrt_sqrt (IZR n)) by exact Rn.
    pose proof (sqrt_pos (IZR n)).
    apply Rmult_le_0_lt_compat; assumption.
  - rewrite <- (sqrt_square (IZR s)) by exact Rs.
    apply sqrt_lt_1_alt. split; [exact Rn|].
    rewrite <- mult_IZR. now apply IZR_lt.
Qed.

Lemma scaled_distance (a b c d s : Z) (P : R) :
  0 < P -> (0 <= s)%Z ->
  (sqrt ((IZR b * P - IZR a * P) * (IZR b * P - IZR a * P)
         + (IZR d * P - IZR c * P) * (IZR d * P - IZR c * P))
   < IZR s * P
   <-> ((b - a) * (b - a) + (d - c) * (d - c) < s * s)%Z).
Proof.
  intros HP Hs.
  set (n := ((b - a) * (b - a) + (d - c) * (d - c))%Z).
  assert (Hn : (0 <= n)%Z).
  { subst n. pose proof (Z.square_nonneg (b - a)).
    pose proof (Z.square_nonneg (d - c)). lia. }
  replace ((IZR b * P - IZR a * P) * (IZR b * P - IZR a * P)
           + (IZR d * P - IZR c * P) * (IZR d * P - IZR c * P))
    with (IZR n * (P * P)).
  2:{ subst n. rewrite plus_IZR, !mult_IZR, !minus_IZR. ring. }
  rewrite sqrt_mult_alt by now apply IZR_le.
  rewrite sqrt_square by lra.
  rewrite <- (sqrt_lt_iff n s Hn Hs).
  split; intros H.
  - apply Rmult_lt_reg_r with P; assumption.
  - apply Rmult_lt_compat_r; assumption.
Qed.

(** On a grid the squared test of [collision] is the test of the euclidean
    distance against the sum of the radii. *)
Lemma CircleCollider_collision_grid_distance (k xa ya ra xb yb rb : Z) :
  grid_sq_ok k ->
  small xa -> small ya -> small ra -> small xb -> small yb -> small rb ->
  (0 <= ra + rb)%Z ->
  let A := grid_circle k xa ya ra in
  let B := grid_circle k xb yb rb in
  CircleCollider_collision A B = true
  <-> euclidean_distance A B < to_R (_radius A) + to_R (_radius B).
Proof.
  intros Hk Hxa Hya Hra Hxb Hyb Hrb Hs A B.
  destruct (grid_sq_ok_grid_ok k Hk) as [Hk1 _].
  subst A B. rewrite CircleCollider_collision_grid by assumption.
  unfold euclidean_distance, grid_circle, new_CircleCollider.
  cbn [_x _y _radius circle_point].
  rewrite !to_R_dyadic by (try assumption; now apply small_bound).
  rewrite <- Rmult_plus_distr_r, <- plus_IZR.
  rewrite scaled_distance by (try assumption; apply powerRZ_lt; lra).
  apply Z.ltb_lt.
Qed.

(** Radii may be negative in the code: two circles of radius -1 whose
    centres are 1 apart collide, the square of the sum of the radii being
    4, although no distance is less than -2. *)
Lemma CircleCollider_collision_negative_radii :
  let A := grid_circle 0 0 0 (-1) in
  let B := grid_circle 0 1 0 (-1) in
  CircleCollider_collision A B = true
  /\ ~ euclidean_distance A B < to_R (_radius A) + to_R (_radius B).
Proof.
  cbv zeta. split; [reflexivity|].
  assert (Hk : grid_ok 0) by (unfold grid_ok; lia).
  unfold grid_circle, new_CircleCollider. cbn [_radius].
  rewrite !to_R_dyadic by (cbn; lia || exact Hk).
  intros H. unfold euclidean_distance in H.
  match type of H with
  | sqrt ?x < _ => pose proof (sqrt_pos x)
  end.
  cbn [powerRZ] in H. lra.
Qed.

End RealDistance.

(** ** Boxes on a grid *)

Section GridBoxes.
Local Open Scope Z_scope.

Lemma Math_sign_gt_0 (d : number) : gt d (S754_zero false) = true -> Math_sign d = of_Z 1.
Proof. destruct d as [[]|[]| |[] m e]; cbn; intros H; try discriminate; reflexivity. Qed.

Lemma Math_sign_lt_0 (d : number) : lt d (S754_zero false) = true -> Math_sign d = of_Z (-1).
Proof. destruct d as [[]|[]| |[] m e]; cbn; intros H; try discriminate; reflexivity. Qed.

(** The penetration times the sign of a nonzero centre distance, on a grid. *)
Lemma canon_mul_sign (p d k : Z) :
  Z.abs p < 2 ^ 53 -> grid_ok k -> p <> 0 -> d <> 0 ->
  mul (canon p k) (Math_sign (canon d k)) = canon (p * Z.sgn d) k.
Proof.
  intros Hp Hk Hp0 Hd0. rewrite canon_sign.
  destruct (Z.eqb_spec d 0) as [|_]; [contradiction|].
  destruct (Z.ltb_spec d 0) as [Hd|Hd].
  - rewrite mul_minus_one_r by now apply canon_valid.
    rewrite canon_neg by exact Hp0. f_equal. rewrite Z.sgn_neg by exact Hd. lia.
  - rewrite mul_one_r by now apply canon_valid.
    f_equal. rewrite Z.sgn_pos by lia. lia.
Qed.

Lemma penetration_canon (a b ra rb k : Z) :
  Z.abs a < 2 ^ 50 -> Z.abs b < 2 ^ 50 ->
  Z.abs ra < 2 ^ 50 -> Z.abs rb < 2 ^ 50 -> grid_ok k ->
  sub (add (canon rb k) (canon ra k)) (Math_abs (sub (canon b k) (canon a k)))
  = canon (rb + ra - Z.abs (b - a)) k.
Proof.
  intros Ha Hb Hra Hrb Hk.
  rewrite canon_sub, canon_abs, canon_add, canon_sub by (try assumption; lia).
  reflexivity.
Qed.

Lemma grid_box_canon (k x y rX rY : Z) :
  grid_ok k -> small x -> small y -> small rX -> small rY ->
  grid_box k x y rX rY
  = new_AABBCollider (canon x k) (canon y k) (canon rX k) (canon rY k).
Proof.
  intros Hk Hx Hy HrX HrY. unfold grid_box.
  now rewrite !dyadic_canon by (try assumption; now apply small_bound).
Qed.

Lemma resolved_penetration (a b ra rb k : Z) (p := rb + ra - Z.abs (b - a)) :
  small a -> small b -> small ra -> small rb -> grid_ok k ->
  0 < p -> a <> b ->
  let b' := add (canon b k) (mul (canon p k) (Math_sign (canon (b - a) k))) in
  sub (add (canon rb k) (canon ra k)) (Math_abs (sub b' (canon a k)))
  = S754_zero false.
Proof.
  unfold small. intros Ha Hb Hra Hrb Hk Hp Hab. cbv zeta.
  rewrite canon_mul_sign by (try assumption; lia).
  assert (Hs : (0 < b - a /\ Z.sgn (b - a) = 1)
               \/ (b - a < 0 /\ Z.sgn (b - a) = -1)).
  { destruct (Z.lt_total (b - a) 0) as [H|[H|H]]; [|lia|].
    - right. split; [exact H | now apply Z.sgn_neg].
    - left. split; [exact H | now apply Z.sgn_pos]. }
  assert (Hd : Z.abs (b + p * Z.sgn (b - a) - a) = rb + ra)
    by (destruct Hs as [[? E] | [? E]]; rewrite ?E; lia).
  rewrite (canon_add b (p * Z.sgn (b - a))) by (try assumption; destruct Hs as [[? E] | [? E]]; rewrite ?E; lia).
  rewrite penetration_canon by (try assumption; destruct Hs as [[? E] | [? E]]; rewrite ?E; lia).
  rewrite Hd, Z.sub_diag. reflexivity.
Qed.

Lemma add_canon_0 (z k : Z) :
  Z.abs z < 2 ^ 53 -> grid_ok k -> add (canon z k) (S754_zero false) = canon z k.
Proof.
  intros Hz Hk. change (S754_zero false) with (canon 0 k).
  rewrite canon_add by (try assumption; rewrite ?Z.add_0_r; cbn; lia).
  now rewrite Z.add_0_r.
Qed.

End GridBoxes.

(** ** Ray2D *)

(** C10.  A new ray has the coordinates of its origin as the components
    of its direction vector, whatever vector the constructor is given. *)
Theorem new_Ray2D_vector_is_origin :
  forall (origin : Point2D) (vector : Vector2D),
    _x (_vector (new_Ray2D origin vector)) = _x origin
    /\ _y (_vector (new_Ray2D origin vector)) = _y origin
    /\ forall vector' : Vector2D,
         new_Ray2D origin vector' = new_Ray2D origin vector.
Proof.
  intros origin vector. repeat split.
Qed.

Section CastNeverBlocking.

Variable map : TileMap2D.
Hypothesis never_blocking : forall x y, _blocking (getTile map x y) = false.

(** Without a blocking tile every iteration goes on to the next one. *)
Lemma cast_loop_never_blocking :
  forall oX oY vX vY dX dY sX sY (fuel i : nat) (st : CastState),
    cast_loop map oX oY vX vY dX dY sX sY fuel i st = ((i + fuel)%nat, NoHit).
Proof.
  intros oX oY vX vY dX dY sX sY fuel.
  induction fuel as [|fuel IH]; intros i st; cbn [cast_loop].
  - now rewrite Nat.add_0_r.
  - rewrite !never_blocking.
    destruct (stepDistX st <? stepDistY st); rewrite IH; f_equal; lia.
Qed.

Lemma Ray2D_cast_steps_never_blocking :
  forall (ray : Ray2D) (range : nat),
    Ray2D_cast_steps ray map range = (range, NoHit).
Proof.
  intros ray range. unfold Ray2D_cast_steps.
  destruct (_x (_vector ray) <? 0), (_y (_vector ray) <? 0);
    apply cast_loop_never_blocking.
Qed.

End CastNeverBlocking.

Section CastSteps.

Variable map : TileMap2D.
Variables oX oY vX vY dX dY sX sY : number.

(** One iteration that advances in x and finds no wall. *)
Lemma cast_loop_x_free (fuel i : nat) (st : CastState) :
  (stepDistX st <? stepDistY st) = true ->
  _blocking (getTile map (mapPosX st + sX) (mapPosY st)) = false ->
  cast_loop map oX oY vX vY dX dY sX sY (S fuel) i st
  = cast_loop map oX oY vX vY dX dY sX sY fuel (S i)
      {| stepDistX := stepDistX st + dX; stepDistY := stepDistY st;
         mapPosX := mapPosX st + sX; mapPosY := mapPosY st |}.
Proof.
  intros Hlt Hfree. cbn [cast_loop]. now rewrite Hlt, Hfree.
Qed.

(** One iteration that advances in x into a wall. *)
Lemma cast_loop_x_hit (fuel i : nat) (st : CastState) :
  (stepDistX st <? stepDistY st) = true ->
  _blocking (getTile map (mapPosX st + sX) (mapPosY st)) = true ->
  cast_loop map oX oY vX vY dX dY sX sY (S fuel) i st
  = (S i,
     Hit {| tile := getTile map (mapPosX st + sX) (mapPosY st);
            offset := calcOffset (mapPosY st) oY
                        (calcDistance (mapPosX st + sX) oX sX vX) vY;
            axis := axis_x;
            distance := calcDistance (mapPosX st + sX) oX sX vX |}).
Proof.
  intros Hlt Hwall. cbn [cast_loop]. now rewrite Hlt, Hwall.
Qed.

End CastSteps.

(** On a map whose only blocking cell is (3, 0), the ray from (0.5, 0.5)
    along (1, 0) takes three steps in x. *)
Lemma Ray2D_cast_steps_single_wall :
  forall (map : TileMap2D) (range : nat),
    (forall x y, _blocking (getTile map x y) = (x === three) && (y === 0)) ->
    Ray2D_cast_steps
      (mk_Ray2D (new_Point2D half half) (new_Vector2D 1 0)) map (3 + range)
    = (3%nat, Hit {| tile := getTile map three 0; offset := half;
                     axis := axis_x; distance := two_and_a_half |}).
Proof.
  intros map range H.
  unfold Ray2D_cast_steps, new_Vector2D.
  cbn [_origin _vector _x _y].
  change (1 <? 0) with false. change (0 <? 0) with false. cbv iota beta.
  change (3 + range)%nat with (S (S (S range))).
  rewrite cast_loop_x_free by (cbn [stepDistX stepDistY mapPosX mapPosY]; first [reflexivity | now rewrite H]).
  rewrite cast_loop_x_free by (cbn [stepDistX stepDistY mapPosX mapPosY]; first [reflexivity | now rewrite H]).
  rewrite cast_loop_x_hit by (cbn [stepDistX stepDistY mapPosX mapPosY]; first [reflexivity | now rewrite H]).
  cbn [stepDistX stepDistY mapPosX mapPosY].
  repeat f_equal.
Qed.

(** C1.  On a map without a blocking tile, [cast] with range 15 runs its
    15 steps and returns the no-hit value, for every ray.  On a map whose
    only blocking cell is (3, 0), the ray from (0.5, 0.5) along (1, 0)
    returns the tile of that cell, axis x and distance 2.5. *)
Theorem Ray2D_cast_empty_map_and_single_wall :
  (forall (map : TileMap2D) (ray : Ray2D),
     (forall x y, _blocking (getTile map x y) = false) ->
     Ray2D_cast ray map 15 = NoHit
     /\ fst (Ray2D_cast_steps ray map 15) = 15%nat)
  /\
  (forall map : TileMap2D,
     (forall x y, _blocking (getTile map x y) = (x === three) && (y === 0)) ->
     Ray2D_cast (mk_Ray2D (new_Point2D half half) (new_Vector2D 1 0)) map 15
     = Hit {| tile := getTile map three 0; offset := half;
              axis := axis_x; distance := two_and_a_half |}).
Proof.
  split.
  - intros map ray Hfree. unfold Ray2D_cast.
    now rewrite Ray2D_cast_steps_never_blocking.
  - intros map Hwall. unfold Ray2D_cast.
    change 15%nat with (3 + 12)%nat.
    now rewrite (Ray2D_cast_steps_single_wall map 12 Hwall).
Qed.

Lemma Ray2D_cast_empty_map_and_single_wall_witness :
  (Ray2D_cast (mk_Ray2D (new_Point2D half half) (new_Vector2D 1 0)) empty_map 15
   = NoHit
   /\ fst (Ray2D_cast_steps
             (mk_Ray2D (new_Point2D half half) (new_Vector2D 1 0)) empty_map 15)
      = 15%nat)
  /\ Ray2D_cast (mk_Ray2D (new_Point2D half half) (new_Vector2D 1 0)) one_wall_map 15
     = Hit {| tile := wall_tile; offset := half;
              axis := axis_x; distance := two_and_a_half |}.
Proof.
  split.
  - apply (proj1 Ray2D_cast_empty_map_and_single_wall empty_map).
    intros x y. reflexivity.
  - apply (proj2 Ray2D_cast_empty_map_and_single_wall one_wall_map).
    intros x y. cbn [one_wall_map getTile].
    destruct ((x === three) && (y === 0)); reflexivity.
Defined.

(** ** RayCamera2D *)

Lemma column_offset_single (halfFOV : number) :
  column_offset halfFOV 1 0 = NaN.
Proof.
  unfold column_offset.
  change (of_Z (shl1 (Z.of_nat 0)) / (of_Z (Z.of_nat 1) - 1)) with NaN.
  now nan.
Qed.

Lemma column_vector_single
    (position : Point2D) (direction : Vector2D) (fov : number) (range : nat)
    (slot : option CastResult) :
  column_vector (mk_RayCamera2D position direction fov range [slot]) 0
  = new_Vector2D NaN NaN.
Proof.
  unfold column_vector. cbn [_scene _fov _direction length].
  rewrite column_offset_single. now nan.
Qed.

(** C2, as the code has it.  With a scene of one column the offset is
    [(0 / 0 - 1) * halfFOV], which is NaN: the single column is cast with
    the vector (NaN, NaN), for every heading and every field of view. *)
Theorem rayCast_single_column_vector_is_NaN :
  forall (position : Point2D) (direction : Vector2D) (fov : number)
         (range : nat) (slot : option CastResult) (map : TileMap2D),
    let cam := mk_RayCamera2D position direction fov range [slot] in
    let ray := mk_Ray2D (new_Point2D (_x position) (_y position))
                        (new_Vector2D NaN NaN) in
    column_vector cam 0 = new_Vector2D NaN NaN
    /\ RayCamera2D_rayCast_ray cam map = (ray, [Some (Ray2D_cast ray map range)]).
Proof.
  intros position direction fov range slot map cam ray. subst cam ray.
  split; [apply column_vector_single|].
  unfold RayCamera2D_rayCast_ray.
  cbn [_scene length rayCast_loop _position _direction _range set_nth].
  rewrite column_vector_single. reflexivity.
Qed.

(** C2 fails on the camera at (0.5, 0.5) that looks along (1, 0): the
    vector of the ray is not the heading, and the scene differs from the
    one a cast along the heading gives. *)
Lemma rayCast_single_column_not_heading :
  _vector (fst (RayCamera2D_rayCast_ray single_column_camera one_wall_map))
    <> _direction single_column_camera
  /\ _scene (RayCamera2D_rayCast single_column_camera one_wall_map)
     <> [Some (Ray2D_cast (mk_Ray2D (_position single_column_camera)
                                    (_direction single_column_camera))
                 one_wall_map (_range single_column_camera))].
Proof.
  split; vm_compute; discriminate.
Qed.

(** ** AABBCollider *)

(** C3 fails for every pair of boxes.  With the vector (0, 0) the sweep
    calls [intersection] with the box as its only argument; the result is
    a hit made of NaN, never the result of the static box test. *)
Theorem sweptBoxIntersection_zero_vector_is_not_static :
  forall (this box : AABBCollider) (s1 s2 : bool),
    let vector := new_Vector2D (S754_zero s1) (S754_zero s2) in
    AABBCollider_sweptBoxIntersection this box vector
    = Some {| time := None;
              delta := new_Point2D 0 NaN;
              normal := new_Point2D 0 NaN;
              pos := new_Pos (VObject box) (VNum NaN) |}
    /\ AABBCollider_sweptBoxIntersection this box vector
       <> AABBCollider_boxIntersection this box.
Proof.
  intros this box s1 s2 vector.
  assert (Hswept : AABBCollider_sweptBoxIntersection this box vector
    = Some {| time := None; delta := new_Point2D 0 NaN;
              normal := new_Point2D 0 NaN;
              pos := new_Pos (VObject box) (VNum NaN) |}).
  { unfold AABBCollider_sweptBoxIntersection, vector, new_Vector2D.
    cbn [_x _y]. destruct s1, s2; cbn [strict_eq SFeqb SFcompare andb];
      unfold AABBCollider_intersection; cbn [ToNumber]; now nan. }
  split; [exact Hswept|].
  rewrite Hswept.
  unfold AABBCollider_boxIntersection, AABBCollider_intersection.
  repeat match goal with
         | |- context [if ?c then _ else _] => destruct c
         end; discriminate.
Qed.

(** The sweep of a circle against a box does fall back to the static
    test when the vector is (0, 0). *)
Lemma AABBCollider_sweptCircleIntersection_zero_vector
    (this : AABBCollider) (circle : CircleCollider) (s1 s2 : bool) :
  AABBCollider_sweptCircleIntersection this circle
    (new_Vector2D (S754_zero s1) (S754_zero s2))
  = AABBCollider_circleIntersection this circle.
Proof. destruct s1, s2; reflexivity. Qed.

(** [boxIntersection] written with the penetrations. *)
Lemma AABBCollider_boxIntersection_eq (this box : AABBCollider) :
  AABBCollider_boxIntersection this box
  = let pX := penetrationX this box in
    let pY := penetrationY this box in
    if pX <=? 0 then None
    else if pY <=? 0 then None
    else if pX <=? pY then
      let sX := Math_sign (centreDeltaX this box) in
      Some {| time := None;
              delta := new_Point2D (pX * sX) 0;
              normal := new_Point2D sX 0;
              pos := new_Pos (VNum (_x this + (_rX this * sX))) (VNum (_y box)) |}
    else
      let sY := Math_sign (centreDeltaY this box) in
      Some {| time := None;
              delta := new_Point2D 0 (pY * sY);
              normal := new_Point2D 0 sY;
              pos := new_Pos (VNum (_x box)) (VNum (_y this + (_rY this * sY))) |}.
Proof. reflexivity. Qed.

Lemma valid_box_penetrations (this box : AABBCollider) :
  valid_box this = true -> valid_box box = true ->
  valid (penetrationX this box) = true /\ valid (penetrationY this box) = true.
Proof.
  unfold valid_box. intros Ht Hb.
  repeat (apply andb_true_iff in Ht; destruct Ht as [Ht ?]).
  repeat (apply andb_true_iff in Hb; destruct Hb as [Hb ?]).
  unfold penetrationX, penetrationY, centreDeltaX, centreDeltaY.
  split; apply sub_valid;
    auto using add_valid, sub_valid, Math_abs_valid.
Qed.

Lemma Math_abs_not_le_0 (p : number) : (p <=? 0) = false -> Math_abs p = p.
Proof.
  destruct p as [[]|[]| |[] m e]; cbn; intros H; try discriminate; reflexivity.
Qed.

Lemma Math_abs_neg (p : number) : Math_abs (- p) = Math_abs p.
Proof. destruct p; reflexivity. Qed.

Lemma Math_sign_cases (d : number) :
  (d === 0) = false ->
  Math_sign d = 1 \/ Math_sign d = of_Z (-1) \/ d = NaN.
Proof.
  destruct d as [[]|[]| |[] m e]; cbn; intros H; try discriminate; auto.
Qed.

(** The displacement along one axis has the penetration as magnitude when
    the centres differ on that axis. *)
Lemma penetration_times_sign (r d : number) :
  let p := r - Math_abs d in
  valid p = true -> (p <=? 0) = false -> (d === 0) = false ->
  Math_abs (p * Math_sign d) = p.
Proof.
  intros p Hv Hp Hd.
  destruct (Math_sign_cases d Hd) as [Hs|[Hs|Hs]].
  - rewrite Hs. change (p * 1) with (mul p (of_Z 1)).
    rewrite mul_one_r by exact Hv. now apply Math_abs_not_le_0.
  - rewrite Hs. change (p * of_Z (-1)) with (mul p (of_Z (-1))).
    rewrite mul_minus_one_r by exact Hv.
    change (neg p) with (- p). rewrite Math_abs_neg. now apply Math_abs_not_le_0.
  - subst p. rewrite Hs. now nan.
Qed.

(** Boxes on a grid: the hit moves the box out of [this] exactly. *)
Lemma AABBCollider_boxIntersection_grid_resolved
    (k xa ya rXa rYa xb yb rXb rYb : Z) (hit : HitInfo) :
  let this := grid_box k xa ya rXa rYa in
  let box := grid_box k xb yb rXb rYb in
  grid_ok k ->
  small xa -> small ya -> small rXa -> small rYa ->
  small xb -> small yb -> small rXb -> small rYb ->
  AABBCollider_boxIntersection this box = Some hit ->
  if penetrationX this box <=? penetrationY this box
  then xa <> xb ->
       penetrationX this (translated box (delta hit)) = 0
       /\ penetrationY this (translated box (delta hit)) = penetrationY this box
       /\ AABBCollider_boxIntersection this (translated box (delta hit)) = None
  else ya <> yb ->
       penetrationY this (translated box (delta hit)) = 0
       /\ penetrationX this (translated box (delta hit)) = penetrationX this box
       /\ AABBCollider_boxIntersection this (translated box (delta hit)) = None.
Proof.
  intros this box Hk Hxa Hya HrXa HrYa Hxb Hyb HrXb HrYb.
  assert (Bxa := Hxa). assert (Bya := Hya). assert (BrXa := HrXa).
  assert (BrYa := HrYa). assert (Bxb := Hxb). assert (Byb := Hyb).
  assert (BrXb := HrXb). assert (BrYb := HrYb).
  unfold small in Bxa, Bya, BrXa, BrYa, Bxb, Byb, BrXb, BrYb.
  subst this box. rewrite !grid_box_canon by assumption.
  set (this := new_AABBCollider (canon xa k) _ _ _).
  set (box := new_AABBCollider (canon xb k) _ _ _).
  assert (EX : penetrationX this box
               = canon (rXb + rXa - Z.abs (xb - xa)) k)
    by (apply penetration_canon; (assumption || lia)).
  assert (EY : penetrationY this box
               = canon (rYb + rYa - Z.abs (yb - ya)) k)
    by (apply penetration_canon; (assumption || lia)).
  rewrite AABBCollider_boxIntersection_eq. cbv zeta.
  destruct (penetrationX this box <=? 0) eqn:HpX; [discriminate|].
  destruct (penetrationY this box <=? 0) eqn:HpY; [discriminate|].
  rewrite EX in HpX. rewrite EY in HpY.
  change (canon ?z k <=? 0) with (le (canon z k) (S754_zero false)) in HpX, HpY.
  rewrite canon_le_0 in HpX, HpY.
  apply Z.leb_gt in HpX, HpY.
  destruct (penetrationX this box <=? penetrationY this box);
    intros Hhit; injection Hhit as <-; intros Hne; cbn [delta].
  - assert (E0 : penetrationX this
                   (translated box
                      (new_Point2D
                         (penetrationX this box * Math_sign (centreDeltaX this box)) 0))
                 = 0).
    { rewrite EX. unfold centreDeltaX, penetrationX, translated, this, box, new_AABBCollider.
      cbn [_x _y _rX _rY box_point].
      change (JS.sub (canon xb k) (canon xa k)) with (sub (canon xb k) (canon xa k)) at 1.
      rewrite (canon_sub xb xa) by (assumption || lia).
      now apply resolved_penetration. }
    split; [exact E0|]. split.
    + unfold penetrationY, centreDeltaY, translated, this, box, new_AABBCollider.
      cbn [_x _y _rX _rY box_point].
      change (JS.add (canon yb k) 0) with (add (canon yb k) (S754_zero false)).
      now rewrite add_canon_0 by (assumption || lia).
    + rewrite AABBCollider_boxIntersection_eq. cbv zeta. now rewrite E0.
  - assert (E0 : penetrationY this
                   (translated box
                      (new_Point2D 0
                         (penetrationY this box * Math_sign (centreDeltaY this box))))
                 = 0).
    { rewrite EY. unfold centreDeltaY, penetrationY, translated, this, box, new_AABBCollider.
      cbn [_x _y _rX _rY box_point].
      change (JS.sub (canon yb k) (canon ya k)) with (sub (canon yb k) (canon ya k)) at 1.
      rewrite (canon_sub yb ya) by (assumption || lia).
      now apply resolved_penetration. }
    assert (E1 : penetrationX this
                   (translated box
                      (new_Point2D 0
                         (penetrationY this box * Math_sign (centreDeltaY this box))))
                 = penetrationX this box).
    { unfold penetrationX, centreDeltaX, translated, this, box, new_AABBCollider.
      cbn [_x _y _rX _rY box_point].
      change (JS.add (canon xb k) 0) with (add (canon xb k) (S754_zero false)).
      now rewrite add_canon_0 by (assumption || lia). }
    split; [exact E0|]. split; [exact E1|].
    rewrite AABBCollider_boxIntersection_eq. cbv zeta.
    rewrite E1, E0.
    destruct (penetrationX this box <=? 0); reflexivity.
Qed.

(** C6, as the code has it.  [boxIntersection] returns [null] exactly when
    the penetration on x or on y is at most 0.  A hit has its displacement
    on the axis of the smaller penetration (x when they are equal), the
    other component being 0.  For boxes of binary64 fields the
    displacement points from the centre of [this] to the centre of [box]:
    it is the penetration when the centre of [box] has the greater
    coordinate on that axis and minus the penetration when it has the
    smaller one, and the normal is the unit vector of that direction.
    For boxes on a dyadic grid whose centres differ on that axis, moving
    [box] by the displacement brings the penetration on that axis to
    exactly 0, leaves the other penetration as it was, and the moved box
    no longer intersects [this]. *)
Theorem AABBCollider_boxIntersection_shallow_axis :
  forall this box : AABBCollider,
    let pX := penetrationX this box in
    let pY := penetrationY this box in
    let dX := centreDeltaX this box in
    let dY := centreDeltaY this box in
    (AABBCollider_boxIntersection this box = None
     <-> (pX <=? 0) = true \/ (pY <=? 0) = true)
    /\ (forall hit : HitInfo,
          AABBCollider_boxIntersection this box = Some hit ->
          valid_box this = true -> valid_box box = true ->
          if pX <=? pY
          then _y (delta hit) = 0
               /\ ((dX === 0) = false -> Math_abs (_x (delta hit)) = pX)
               /\ ((dX >? 0) = true ->
                   _x (delta hit) = pX /\ normal hit = new_Point2D 1 0)
               /\ ((dX <? 0) = true ->
                   _x (delta hit) = - pX
                   /\ normal hit = new_Point2D (of_Z (-1)) 0)
          else _x (delta hit) = 0
               /\ ((dY === 0) = false -> Math_abs (_y (delta hit)) = pY)
               /\ ((dY >? 0) = true ->
                   _y (delta hit) = pY /\ normal hit = new_Point2D 0 1)
               /\ ((dY <? 0) = true ->
                   _y (delta hit) = - pY
                   /\ normal hit = new_Point2D 0 (of_Z (-1))))
    /\ (forall (k xa ya rXa rYa xb yb rXb rYb : Z) (hit : HitInfo),
          this = grid_box k xa ya rXa rYa ->
          box = grid_box k xb yb rXb rYb ->
          grid_ok k ->
          small xa -> small ya -> small rXa -> small rYa ->
          small xb -> small yb -> small rXb -> small rYb ->
          AABBCollider_boxIntersection this box = Some hit ->
          let moved := translated box (delta hit) in
          if pX <=? pY
          then xa <> xb ->
               penetrationX this moved = 0
               /\ penetrationY this moved = pY
               /\ AABBCollider_boxIntersection this moved = None
          else ya <> yb ->
               penetrationY this moved = 0
               /\ penetrationX this moved = pX
               /\ AABBCollider_boxIntersection this moved = None).
Proof.
  intros this box pX pY dX dY.
  split; [|split].
  - rewrite AABBCollider_boxIntersection_eq. fold pX pY. cbv zeta.
    destruct (pX <=? 0); [intuition|].
    destruct (pY <=? 0); [intuition|].
    destruct (pX <=? pY); split; intros H;
      try discriminate; destruct H; discriminate.
  - rewrite AABBCollider_boxIntersection_eq. fold pX pY dX dY. cbv zeta.
    intros hit Hhit Ht Hb.
    destruct (valid_box_penetrations this box Ht Hb) as [HvX HvY].
    fold pX in HvX. fold pY in HvY.
    destruct (pX <=? 0) eqn:HpX; [discriminate|].
    destruct (pY <=? 0) eqn:HpY; [discriminate|].
    destruct (pX <=? pY); injection Hhit as <-; cbn [delta normal _x _y];
      (split; [reflexivity|]); (split; [|split]); intros Hd.
    + now apply penetration_times_sign.
    + rewrite (Math_sign_gt_0 dX Hd). split; [|reflexivity].
      now apply mul_one_r.
    + rewrite (Math_sign_lt_0 dX Hd). split; [|reflexivity].
      now apply mul_minus_one_r.
    + now apply penetration_times_sign.
    + rewrite (Math_sign_gt_0 dY Hd). split; [|reflexivity].
      now apply mul_one_r.
    + rewrite (Math_sign_lt_0 dY Hd). split; [|reflexivity].
      now apply mul_minus_one_r.
  - intros k xa ya rXa rYa xb yb rXb rYb hit Ethis Ebox Hk
           Hxa Hya HrXa HrYa Hxb Hyb HrXb HrYb Hhit moved.
    subst moved pX pY dX dY. subst this box.
    now apply (AABBCollider_boxIntersection_grid_resolved
                 k xa ya rXa rYa xb yb rXb rYb hit).
Qed.

(** The hit of the unit box at the origin with the unit box at
    (1.5, 0.25): the penetrations are 0.5 and 1.75, and the displacement
    0.5 along x leaves the boxes touching. *)
Lemma AABBCollider_boxIntersection_shallow_axis_witness :
  exists hit : HitInfo,
    AABBCollider_boxIntersection unit_box box_R = Some hit
    /\ _y (delta hit) = 0
    /\ Math_abs (_x (delta hit)) = half
    /\ _x (delta hit) = half
    /\ normal hit = new_Point2D 1 0
    /\ penetrationX unit_box (translated box_R (delta hit)) = 0
    /\ AABBCollider_boxIntersection unit_box (translated box_R (delta hit)) = None.
Proof.
  eexists. split; [reflexivity|].
  destruct (AABBCollider_boxIntersection_shallow_axis unit_box box_R)
    as [_ [H2 H3]].
  specialize (H2 _ eq_refl eq_refl eq_refl).
  assert (Hk : grid_ok (-2)) by (unfold grid_ok; lia).
  specialize (H3 (-2)%Z 0%Z 0%Z 4%Z 4%Z 6%Z 1%Z 4%Z 4%Z _
                eq_refl eq_refl Hk
                eq_refl eq_refl eq_refl eq_refl
                eq_refl eq_refl eq_refl eq_refl eq_refl).
  cbv beta zeta in H2, H3.
  change (penetrationX unit_box box_R <=? penetrationY unit_box box_R)
    with true in H2, H3.
  cbv iota in H2, H3.
  destruct H2 as [Hy [Hm [Hp _]]].
  destruct (Hp eq_refl) as [Hx Hn].
  assert (Hne : 0%Z <> 6%Z) by discriminate.
  destruct (H3 Hne) as [R0 [_ RN]].
  split; [exact Hy|]. split; [exact (Hm eq_refl)|].
  split; [exact Hx|]. split; [exact Hn|].
  split; [exact R0 | exact RN].
Defined.

(** C6 fails in two ways.  Two boxes with the same centre get the
    displacement (0, 0) although both penetrations are 2, because
    [Math.sign(0)] is 0.  And moving the second of the boxes centred at
    (1.5, 0.6) and (2.0, 0.5) by its displacement leaves the penetration
    -2^-52, not 0: the additions round. *)
Lemma AABBCollider_boxIntersection_not_resolved :
  (AABBCollider_boxIntersection unit_box unit_box
   = Some {| time := None;
             delta := new_Point2D 0 0;
             normal := new_Point2D 0 0;
             pos := new_Pos (VNum 0) (VNum 0) |}
   /\ penetrationX unit_box unit_box = 2
   /\ penetrationY unit_box unit_box = 2)
  /\
  (exists hit : HitInfo,
     AABBCollider_boxIntersection box_P box_Q = Some hit
     /\ delta hit = new_Point2D (penetrationX box_P box_Q) 0
     /\ (penetrationX box_P box_Q <=? penetrationY box_P box_Q) = true
     /\ penetrationX box_P (translated box_Q (delta hit)) = dyadic (-1) (-52)).
Proof.
  split.
  - repeat split.
  - eexists. split; [reflexivity|]. repeat split.
Qed.

(** C7.  [vectorIntersection] returns [null] whenever the entry time is at
    least 1 or the exit time is at most 0. *)
Theorem AABBCollider_vectorIntersection_outside_unit_interval :
  forall (this : AABBCollider) (origin : Point2D) (vector : Vector2D)
         (pX pY : number),
    let s := slab_times this origin vector pX pY in
    (AABBCollider_nearTime s >=? 1) || (AABBCollider_farTime s <=? 0) = true ->
    AABBCollider_vectorIntersection this origin vector pX pY = None.
Proof.
  intros this origin vector pX pY s H.
  unfold AABBCollider_vectorIntersection. fold s.
  destruct ((nearTimeX s >? farTimeY s) || (nearTimeY s >? farTimeX s));
    [reflexivity|].
  now rewrite H.
Qed.

(** A segment from (0, 0) along (2, 0.25) stops short of the box of half
    extents 1 centred at (5, 0): the per-axis intervals overlap, the entry
    time is 2, and the result is [null]. *)
Lemma AABBCollider_vectorIntersection_outside_unit_interval_witness :
  let box := new_AABBCollider five 0 1 1 in
  let s := slab_times box (new_Point2D 0 0) (new_Vector2D 2 quarter) 0 0 in
  (nearTimeX s >? farTimeY s) || (nearTimeY s >? farTimeX s) = false
  /\ AABBCollider_nearTime s = 2
  /\ AABBCollider_vectorIntersection box
       (new_Point2D 0 0) (new_Vector2D 2 quarter) 0 0 = None.
Proof.
  intros box s. split; [reflexivity|]. split; [reflexivity|].
  apply (AABBCollider_vectorIntersection_outside_unit_interval
           box (new_Point2D 0 0) (new_Vector2D 2 quarter) 0 0).
  reflexivity.
Defined.

(** The same line followed five times as far enters the box. *)
Example AABBCollider_vectorIntersection_long_segment_hits :
  exists hit,
    AABBCollider_vectorIntersection (new_AABBCollider five 0 1 1)
      (new_Point2D 0 0) (new_Vector2D ten (five * quarter)) 0 0 = Some hit
    /\ normal hit = new_Point2D (of_Z (-1)) 0.
Proof.
  eexists. split; vm_compute; reflexivity.
Qed.

(** C9.  The two versions of the slab method disagree.  For the unit box
    at the origin and the segment from (2, 0) along (1, 0.25), which
    moves away from the box, [BoundingBox.vectorIntersection] (far time
    by the larger) returns a hit and [AABBCollider.vectorIntersection]
    (far time by the smaller) returns [null]. *)
Theorem vectorIntersection_versions_disagree :
  exists (box : AABBCollider) (origin : Point2D) (vector : Vector2D)
         (pX pY : number),
    BoundingBox_vectorIntersection box origin vector pX pY
    <> AABBCollider_vectorIntersection box origin vector pX pY
    /\ AABBCollider_vectorIntersection box origin vector pX pY = None.
Proof.
  exists unit_box, (new_Point2D 2 0), (new_Vector2D 1 quarter), 0, 0.
  split; vm_compute; [discriminate | reflexivity].
Qed.

(** ** CircleCollider *)

(** C4 fails.  With the vector (0, 0) the unit vector of the sweep is
    (0 / 0, 0 / 0): the sweep returns [null] for every pair of circles,
    also where the static test returns a hit, as it does for the unit
    circle and the unit circle centred at (0.5, 0). *)
Theorem sweptCircleIntersection_zero_vector_is_null :
  (forall (this circle : CircleCollider) (s1 s2 : bool),
     CircleCollider_sweptCircleIntersection this circle
       (new_Vector2D (S754_zero s1) (S754_zero s2)) = None)
  /\ CircleCollider_circleIntersection unit_circle (new_CircleCollider half 0 1)
     = Some {| time := None;
               delta := new_Point2D (dyadic 3 (-1)) (- 0);
               normal := new_Point2D 1 (- 0);
               pos := new_Pos (VNum 1) (VNum 0) |}.
Proof.
  split; [|reflexivity].
  intros this circle s1 s2.
  unfold CircleCollider_sweptCircleIntersection,
    CircleCollider_vectorIntersection, new_Vector2D.
  cbn [_x _y].
  assert (HvM : Vector2D_magnitude (new_Point2D (S754_zero s1) (S754_zero s2)) = 0)
    by (destruct s1, s2; reflexivity).
  rewrite HvM.
  change (S754_zero s1 / 0) with NaN. change (S754_zero s2 / 0) with NaN.
  now nan.
Qed.

(** *** Coincident centres *)

Lemma sub_self (a : number) : is_finite a = true -> a - a = 0.
Proof.
  destruct a as [[]|[]| |s m e]; intros H; try discriminate; try reflexivity.
  unfold sub. cbn [SFsub]. unfold shl_align.
  rewrite Z.min_id, !Z.sub_diag. reflexivity.
Qed.

Lemma Math_clamp_zero (r : number) :
  (0 <? r) = true -> Math_clamp 0 (- r) r = 0.
Proof.
  destruct r as [[]|[]| |[] m e]; intros H; try discriminate; reflexivity.
Qed.

Lemma mul_zero_r (a : number) (s : bool) : zero_or_NaN (a * S754_zero s).
Proof.
  destruct a as [sa|sa| |sa m e]; cbn; unfold zero_or_NaN; auto.
Qed.

Lemma near_refl (c : number) : near c c.
Proof. now left. Qed.

Lemma add_zero_near (c x z : number) :
  is_finite c = true -> near_or_NaN c x -> zero_or_NaN z ->
  near_or_NaN c (x + z).
Proof.
  intros Hc [->|Hx] [->|Hz]; try (left; now nan).
  destruct z as [sz| | |]; try discriminate.
  right. destruct Hx as [->|[Hc0 Hx0]].
  - destruct c as [[]| | |]; try discriminate; destruct sz;
      (now left) || (right; now split).
  - destruct c as [[]| | |], x as [[]| | |]; try discriminate; destruct sz;
      right; now split.
Qed.

Lemma sub_zero_near (c x z : number) :
  is_finite c = true -> near_or_NaN c x -> zero_or_NaN z ->
  near_or_NaN c (x - z).
Proof.
  intros Hc [->|Hx] [->|Hz]; try (left; now nan).
  destruct z as [sz| | |]; try discriminate.
  right. destruct Hx as [->|[Hc0 Hx0]].
  - destruct c as [[]| | |]; try discriminate; destruct sz;
      (now left) || (right; now split).
  - destruct c as [[]| | |], x as [[]| | |]; try discriminate; destruct sz;
      right; now split.
Qed.

Lemma sub_near_l (c x : number) :
  is_finite c = true -> near_or_NaN c x -> zero_or_NaN (c - x).
Proof.
  intros Hc [->|[->|[Hc0 Hx0]]].
  - left. now nan.
  - right. now rewrite sub_self.
  - right. destruct c as [[]| | |], x as [[]| | |]; try discriminate; reflexivity.
Qed.

Lemma sub_near_r (c x : number) :
  is_finite c = true -> near c x -> is_zero (x - c) = true.
Proof.
  intros Hc [->|[Hc0 Hx0]].
  - now rewrite sub_self.
  - destruct c as [[]| | |], x as [[]| | |]; try discriminate; reflexivity.
Qed.

Lemma strict_eq_near (c x : number) :
  is_finite c = true -> near c x -> (x === c) = true.
Proof.
  intros Hc [->|[Hc0 Hx0]].
  - destruct c as [sc| | |sc m e]; try discriminate; [reflexivity|].
    unfold strict_eq, SFeqb. cbn [SFcompare].
    rewrite Z.compare_refl, Pos.compare_cont_refl. now destruct sc.
  - destruct c, x; try discriminate; reflexivity.
Qed.

Lemma add_zero_r_near (c : number) : is_finite c = true -> near c (c + 0).
Proof.
  destruct c as [[]| | |]; intros H; try discriminate;
    (now left) || (right; now split).
Qed.

(** The point test of a circle on its own centre, or on NaN: [null], or
    the hit made of NaN once 0 is divided by 0. *)
Lemma CircleCollider_intersection_at_centre (cx cy r x y : number) :
  is_finite cx = true -> is_finite cy = true ->
  near_or_NaN cx x -> near_or_NaN cy y ->
  CircleCollider_intersection (new_CircleCollider cx cy r) x y 0 = None
  \/ CircleCollider_intersection (new_CircleCollider cx cy r) x y 0
     = Some NaN_hit.
Proof.
  intros Hcx Hcy Hx Hy.
  unfold CircleCollider_intersection, new_CircleCollider.
  cbn [_x _y _radius circle_point].
  destruct (sub_near_l cx x Hcx Hx) as [->|Hdx]; [left; now nan|].
  destruct (sub_near_l cy y Hcy Hy) as [->|Hdy]; [left; now nan|].
  destruct (cx - x) as [sx| | |]; try discriminate.
  destruct (cy - y) as [sy| | |]; try discriminate.
  assert (Hd2 : S754_zero sx * S754_zero sx + S754_zero sy * S754_zero sy = 0)
    by (destruct sx, sy; reflexivity).
  rewrite Hd2.
  destruct (0 <? (r + 0) * (r + 0)); [right|now left].
  change (Math_sqrt 0) with 0.
  change (S754_zero sx / 0) with NaN. change (S754_zero sy / 0) with NaN.
  unfold NaN_hit. now nan.
Qed.

(** C5 fails for every circle and box with a common centre.  The box test
    on the common centre has the normal (0, 0), so that the closest point
    stays at the centre, where the point test of the circle divides 0 by
    0: the call throws or returns the hit made of NaN, never a finite
    displacement. *)
Theorem CircleCollider_boxIntersection_same_centre :
  forall cx cy r rX rY : number,
    is_finite cx = true -> is_finite cy = true ->
    (0 <? rX) = true -> (0 <? rY) = true ->
    let result := CircleCollider_boxIntersection
                    (new_CircleCollider cx cy r) (new_AABBCollider cx cy rX rY) in
    result = TypeError \/ result = Normal (Some NaN_hit).
Proof.
  intros cx cy r rX rY Hcx Hcy HrX HrY result. subst result.
  unfold CircleCollider_boxIntersection.
  change (new_AABBCollider cx cy rX rY)
    with (new_AABBCollider_at (new_Point2D cx cy) rX rY).
  cbn [_x _y _rX _rY box_point].
  change (_x (new_CircleCollider cx cy r)) with cx.
  change (_y (new_CircleCollider cx cy r)) with cy.
  rewrite !sub_self, !Math_clamp_zero by assumption.
  pose proof (add_zero_r_near cx Hcx) as Hx1.
  pose proof (add_zero_r_near cy Hcy) as Hy1.
  rewrite !strict_eq_near by assumption. cbn [andb].
  unfold AABBCollider_intersection.
  cbn [_x _y _rX _rY box_point ToNumber].
  pose proof (sub_near_r cx (cx + 0) Hcx Hx1) as HdX.
  pose proof (sub_near_r cy (cy + 0) Hcy Hy1) as HdY.
  destruct (cx + 0 - cx) as [sX| | |]; try discriminate.
  destruct (cy + 0 - cy) as [sY| | |]; try discriminate.
  cbn [Math_sign].
  set (pX := 1 + rX - Math_abs (S754_zero sX)).
  set (pY := 1 + rY - Math_abs (S754_zero sY)).
  destruct (pX <=? 0); [now left|].
  destruct (pY <=? 0); [now left|].
  destruct (pX <=? pY);
    cbn [pos normal delta time pos_x pos_y _x _y ToNumber].
  - set (x2 := cx + rX * S754_zero sX - rX * 2 * S754_zero sX).
    set (y2 := cy + 0 - rY * 2 * 0).
    assert (Hx2 : near_or_NaN cx x2).
    { apply sub_zero_near, mul_zero_r; [assumption|].
      apply add_zero_near, mul_zero_r; [assumption|]. right. apply near_refl. }
    assert (Hy2 : near_or_NaN cy y2).
    { apply sub_zero_near, mul_zero_r; [assumption|]. now right. }
    destruct (CircleCollider_intersection_at_centre cx cy r x2 y2 Hcx Hcy Hx2 Hy2)
      as [->| ->]; [now left|right].
    unfold NaN_hit. cbn [pos normal delta time _x _y]. now nan.
  - set (x2 := cx + 0 - rX * 2 * 0).
    set (y2 := cy + rY * S754_zero sY - rY * 2 * S754_zero sY).
    assert (Hx2 : near_or_NaN cx x2).
    { apply sub_zero_near, mul_zero_r; [assumption|]. now right. }
    assert (Hy2 : near_or_NaN cy y2).
    { apply sub_zero_near, mul_zero_r; [assumption|].
      apply add_zero_near, mul_zero_r; [assumption|]. right. apply near_refl. }
    destruct (CircleCollider_intersection_at_centre cx cy r x2 y2 Hcx Hcy Hx2 Hy2)
      as [->| ->]; [now left|right].
    unfold NaN_hit. cbn [pos normal delta time _x _y]. now nan.
Qed.

(** For the unit circle and the unit box at the origin the hit made of
    NaN is returned. *)
Lemma CircleCollider_boxIntersection_same_centre_witness :
  CircleCollider_boxIntersection unit_circle unit_box = Normal (Some NaN_hit).
Proof.
  destruct (CircleCollider_boxIntersection_same_centre 0 0 1 1 1
              eq_refl eq_refl eq_refl eq_refl) as [H|H].
  - discriminate H.
  - exact H.
Defined.

(** C8, as the code has it.  [collision] compares the squared distance of
    the centres with the square of the sum of the radii, both computed in
    binary64; it is false when either is NaN.  For circles on a dyadic
    grid (coordinates and radii [z * 2^k] with [|z| < 2^25] and
    [-511 <= k <= 485]) whose radii have a sum of at least 0, no
    operation rounds and [collision] is true exactly when the euclidean
    distance of the centres, in the reals, is less than the sum of the
    radii. *)
Theorem CircleCollider_collision_squared_distances :
  forall this circle : CircleCollider,
    let dx := _x circle - _x this in
    let dy := _y circle - _y this in
    let r := _radius this + _radius circle in
    (CircleCollider_collision this circle = true
     <-> ((dx * dx + dy * dy) <? (r * r)) = true)
    /\ (is_nan (dx * dx + dy * dy) || is_nan (r * r) = true ->
        CircleCollider_collision this circle = false)
    /\ (forall k xa ya ra xb yb rb : Z,
          this = grid_circle k xa ya ra ->
          circle = grid_circle k xb yb rb ->
          grid_sq_ok k ->
          small xa -> small ya -> small ra ->
          small xb -> small yb -> small rb ->
          (0 <= ra + rb)%Z ->
          (CircleCollider_collision this circle = true
           <-> Rdefinitions.Rlt
                 (euclidean_distance this circle)
                 (Rdefinitions.Rplus (to_R (_radius this))
                                     (to_R (_radius circle))))
          /\ (CircleCollider_collision this circle = true
              <-> ((xb - xa) * (xb - xa) + (yb - ya) * (yb - ya)
                   < (ra + rb) * (ra + rb))%Z)).
Proof.
  intros this circle dx dy r. split; [reflexivity|]. split.
  - unfold CircleCollider_collision, Point2D_distanceTo2. fold dx dy r.
    intros H. apply orb_true_iff in H. destruct H as [H|H].
    + destruct (dx * dx + dy * dy); try discriminate. reflexivity.
    + destruct (r * r); try discriminate. apply lt_NaN_r.
  - intros k xa ya ra xb yb rb -> -> Hk Hxa Hya Hra Hxb Hyb Hrb Hs. split.
    + now apply CircleCollider_collision_grid_distance.
    + rewrite CircleCollider_collision_grid by assumption. apply Z.ltb_lt.
Qed.

(** The unit circles centred at (0, 0) and (1, 1) collide, their centres
    being less than 2 apart; and a circle with a NaN coordinate collides
    with nothing. *)
Lemma CircleCollider_collision_squared_distances_witness :
  (CircleCollider_collision unit_circle (new_CircleCollider 1 1 1) = true
   /\ Rdefinitions.Rlt
        (euclidean_distance unit_circle (new_CircleCollider 1 1 1))
        (Rdefinitions.Rplus (to_R 1) (to_R 1)))
  /\ CircleCollider_collision
       (new_CircleCollider NaN 0 1) (new_CircleCollider 0 0 1) = false.
Proof.
  split.
  - destruct (CircleCollider_collision_squared_distances
                unit_circle (new_CircleCollider 1 1 1)) as [_ [_ H]].
    assert (Hk : grid_sq_ok 0) by (unfold grid_sq_ok; lia).
    assert (Hs : (0 <= 1 + 1)%Z) by lia.
    destruct (H 0%Z 0%Z 0%Z 1%Z 1%Z 1%Z 1%Z eq_refl eq_refl Hk
                eq_refl eq_refl eq_refl eq_refl eq_refl eq_refl Hs)
      as [HR _].
    split; [reflexivity | exact (proj1 HR eq_refl)].
  - apply (proj1 (proj2 (CircleCollider_collision_squared_distances
                    (new_CircleCollider NaN 0 1) (new_CircleCollider 0 0 1)))).
    reflexivity.
Defined.

(** C8 fails in both directions.  Two equal circles of radius 2^-600 are
    at distance 0, less than the sum 2^-599 of their radii, and do not
    collide: the square of the sum underflows to 0.  The circles
    [circle_S] and [circle_T] collide although the distance of their
    centres, rounded, is the sum 1.25 of their radii. *)
Lemma CircleCollider_collision_differs_from_distance_test :
  (CircleCollider_collision tiny_circle tiny_circle = false
   /\ Point2D_distanceTo tiny_circle tiny_circle = 0
   /\ (0 <? (_radius tiny_circle + _radius tiny_circle)) = true
   /\ (Point2D_distanceTo tiny_circle tiny_circle
       <? (_radius tiny_circle + _radius tiny_circle)) = true)
  /\
  (CircleCollider_collision circle_S circle_T = true
   /\ Point2D_distanceTo circle_S circle_T = dyadic 5 (-2)
   /\ _radius circle_S + _radius circle_T = dyadic 5 (-2)
   /\ (Point2D_distanceTo circle_S circle_T
       <? (_radius circle_S + _radius circle_T)) = false).
Proof.
  split; repeat split.
Qed.

(** * Further properties *)

(** ** Comparisons *)

Lemma SFcompare_antisym (a b : number) :
  SFcompare b a = option_map CompOpp (SFcompare a b).
Proof.
  destruct a as [[]|[]| |[] ma ea], b as [[]|[]| |[] mb eb];
    cbn [SFcompare option_map CompOpp]; try reflexivity;
    rewrite (Z.compare_antisym ea eb);
    destruct (ea ?= eb)%Z; cbn [CompOpp]; try reflexivity;
    rewrite (Pos.compare_cont_antisym ma mb Eq); cbn [CompOpp];
    try rewrite CompOpp_involutive; reflexivity.
Qed.

Lemma SFcompare_refl (a : number) :
  is_nan a = false -> SFcompare a a = Some Eq.
Proof.
  destruct a as [[]|[]| |[] m e]; intros H; try discriminate; try reflexivity;
    cbn [SFcompare]; now rewrite Z.compare_refl, Pos.compare_cont_refl.
Qed.

Lemma le_refl (a : number) : is_nan a = false -> (a <=? a) = true.
Proof. intros H. unfold le, SFleb. now rewrite SFcompare_refl. Qed.

Lemma le_lt_or_eq (a b : number) : (a <=? b) = (a <? b) || (a === b).
Proof.
  unfold le, lt, strict_eq, SFleb, SFltb, SFeqb.
  destruct (SFcompare a b) as [[]|]; reflexivity.
Qed.

Lemma not_ge_lt (a b : number) :
  is_nan a = false -> is_nan b = false -> (a >=? b) = false -> (a <? b) = true.
Proof.
  unfold ge, lt, le, SFleb, SFltb. rewrite (SFcompare_antisym a b).
  intros Ha Hb.
  destruct a, b; try discriminate;
    destruct (SFcompare _ _) as [[]|] eqn:E; cbn; try discriminate; try reflexivity;
    cbn in E; discriminate.
Qed.

(** ** Signs *)

Lemma binary_round_aux_neg (s : bool) (m e : Z) (l : location) :
  binary_round_aux prec emax (negb s) m e l
  = - binary_round_aux prec emax s m e l.
Proof.
  unfold binary_round_aux.
  destruct (shr_fexp prec emax m e l) as [mrs e1].
  destruct (shr_fexp prec emax _ e1 loc_Exact) as [mrs2 e2].
  destruct (shr_m mrs2); try reflexivity.
  destruct (e2 <=? emax - prec)%Z; reflexivity.
Qed.

Lemma binary_round_neg (s : bool) (m : positive) (e : Z) :
  binary_round prec emax (negb s) m e = - binary_round prec emax s m e.
Proof.
  unfold binary_round.
  destruct (shl_align m e _) as [mz ez]. apply binary_round_aux_neg.
Qed.

Lemma binary_normalize_opp (z e : Z) :
  binary_normalize prec emax (- z) e false
  = - binary_normalize prec emax z e false
  \/ z = 0%Z.
Proof.
  destruct z as [|p|p]; [now right|left..]; cbn [Z.opp binary_normalize].
  - apply (binary_round_neg false).
  - apply (binary_round_neg true).
Qed.

Lemma neg_involutive (a : number) : - - a = a.
Proof. destruct a as [[]|[]| |[] m e]; reflexivity. Qed.

Lemma mul_neg_l (a b : number) : (- a) * b = - (a * b).
Proof.
  destruct a as [sa|sa| |sa ma ea], b as [sb|sb| |sb mb eb];
    cbn [neg SFopp mul SFmul]; try reflexivity;
    try (now destruct sa, sb).
  unfold mul. cbn [SFmul].
  replace (xorb (negb sa) sb) with (negb (xorb sa sb)) by now destruct sa, sb.
  apply binary_round_aux_neg.
Qed.

Lemma mul_comm (a b : number) : a * b = b * a.
Proof.
  destruct a as [sa|sa| |sa ma ea], b as [sb|sb| |sb mb eb];
    unfold mul; cbn [SFmul]; try reflexivity;
    try (now rewrite xorb_comm).
  now rewrite xorb_comm, Pos.mul_comm, Z.add_comm.
Qed.

Lemma mul_neg_r (a b : number) : a * (- b) = - (a * b).
Proof. now rewrite mul_comm, mul_neg_l, mul_comm. Qed.

Lemma mul_neg_neg (a b : number) : (- a) * (- b) = a * b.
Proof. now rewrite mul_neg_l, mul_neg_r, neg_involutive. Qed.

Lemma add_comm (a b : number) : a + b = b + a.
Proof.
  destruct a as [sa|sa| |sa ma ea], b as [sb|sb| |sb mb eb];
    unfold add; cbn [SFadd]; try reflexivity;
    try (now destruct sa, sb).
  now rewrite Z.min_comm, Z.add_comm.
Qed.

(** Swapping the operands of a subtraction negates the result, except
    that a difference of equal numbers is [+0] both ways. *)
Lemma sub_antisym (a b : number) :
  b - a = - (a - b) \/ (a - b = 0 /\ b - a = 0).
Proof.
  destruct a as [sa|sa| |sa ma ea], b as [sb|sb| |sb mb eb];
    unfold sub; cbn [SFsub neg SFopp];
    try (left; reflexivity);
    try (destruct sa, sb; (left; reflexivity) || (right; split; reflexivity)).
  rewrite (Z.min_comm eb ea).
  set (za := cond_Zopp sa (Z.pos (fst (shl_align ma ea (Z.min ea eb))))).
  set (zb := cond_Zopp sb (Z.pos (fst (shl_align mb eb (Z.min ea eb))))).
  replace (zb - za)%Z with (- (za - zb))%Z by lia.
  destruct (binary_normalize_opp (za - zb) (Z.min ea eb)) as [H|H].
  - left. exact H.
  - right. rewrite H. split; reflexivity.
Qed.

Lemma Math_abs_sub_comm (a b : number) : Math_abs (b - a) = Math_abs (a - b).
Proof.
  destruct (sub_antisym a b) as [->|[-> ->]]; [|reflexivity].
  apply Math_abs_neg.
Qed.

Lemma sq_sub_comm (a b : number) : (b - a) * (b - a) = (a - b) * (a - b).
Proof.
  destruct (sub_antisym a b) as [->|[-> ->]]; [|reflexivity].
  apply mul_neg_neg.
Qed.

(** ** Points and circles *)

Lemma Point2D_distanceTo2_comm (a b : Point2D) :
  Point2D_distanceTo2 a b = Point2D_distanceTo2 b a.
Proof.
  unfold Point2D_distanceTo2. cbv zeta.
  now rewrite (sq_sub_comm (_x b) (_x a)), (sq_sub_comm (_y b) (_y a)).
Qed.

Lemma Point2D_distanceTo_comm (a b : Point2D) :
  Point2D_distanceTo a b = Point2D_distanceTo b a.
Proof.
  unfold Point2D_distanceTo. cbv zeta.
  now rewrite (sq_sub_comm (_x b) (_x a)), (sq_sub_comm (_y b) (_y a)).
Qed.

(** X1.  The distance and the squared distance of two points do not
    depend on which of the two the method is called on, bit for bit. *)
Theorem Point2D_distanceTo_symmetric :
  forall a b : Point2D,
    Point2D_distanceTo2 a b = Point2D_distanceTo2 b a
    /\ Point2D_distanceTo a b = Point2D_distanceTo b a.
Proof.
  intros a b. split.
  - apply Point2D_distanceTo2_comm.
  - apply Point2D_distanceTo_comm.
Qed.

(** X2.  Both collision tests of circles are symmetric. *)
Theorem circle_collision_symmetric :
  forall a b : CircleCollider,
    CircleCollider_collision a b = CircleCollider_collision b a
    /\ BoundingCircle_collision a b = BoundingCircle_collision b a.
Proof.
  intros a b. unfold CircleCollider_collision, BoundingCircle_collision.
  rewrite (Point2D_distanceTo2_comm a b), (Point2D_distanceTo_comm a b).
  now rewrite (add_comm (_radius a) (_radius b)).
Qed.

(** X3.  The static test of two circles returns a hit exactly when
    [collision] is true. *)
Theorem CircleCollider_circleIntersection_iff_collision :
  forall this circle : CircleCollider,
    CircleCollider_circleIntersection this circle <> None
    <-> CircleCollider_collision this circle = true.
Proof.
  intros this circle.
  unfold CircleCollider_circleIntersection, CircleCollider_intersection,
    CircleCollider_collision, Point2D_distanceTo2.
  cbv zeta. cbn [_x _y].
  rewrite (sq_sub_comm (_x circle) (_x this)), (sq_sub_comm (_y circle) (_y this)).
  destruct (_ <? _); split; intros H; try reflexivity; try discriminate.
  now contradiction H.
Qed.

Lemma CircleCollider_circleIntersection_iff_collision_witness :
  CircleCollider_circleIntersection unit_circle (new_CircleCollider half 0 1)
  <> None.
Proof.
  apply (proj2 (CircleCollider_circleIntersection_iff_collision
                  unit_circle (new_CircleCollider half 0 1))).
  reflexivity.
Defined.

(** The circle test on a point that is the centre up to the sign of a
    zero: the test passes exactly when the square of the combined radius
    is positive, and the hit is then made of NaN. *)
Lemma CircleCollider_intersection_same_centre (cx cy r x y radius : number) :
  is_finite cx = true -> is_finite cy = true ->
  near cx x -> near cy y ->
  CircleCollider_intersection (new_CircleCollider cx cy r) x y radius
  = if 0 <? (r + radius) * (r + radius) then Some NaN_hit else None.
Proof.
  intros Hcx Hcy Hx Hy.
  unfold CircleCollider_intersection, new_CircleCollider.
  cbn [_x _y _radius circle_point].
  destruct (sub_near_l cx x Hcx (or_intror Hx)) as [E|Hdx].
  { destruct Hx as [->|[H1 H2]].
    - rewrite sub_self in E by assumption. discriminate.
    - destruct cx as [[]| | |], x as [[]| | |]; try discriminate;
        vm_compute in E; discriminate. }
  destruct (sub_near_l cy y Hcy (or_intror Hy)) as [E|Hdy].
  { destruct Hy as [->|[H1 H2]].
    - rewrite sub_self in E by assumption. discriminate.
    - destruct cy as [[]| | |], y as [[]| | |]; try discriminate;
        vm_compute in E; discriminate. }
  destruct (cx - x) as [sx| | |]; try discriminate.
  destruct (cy - y) as [sy| | |]; try discriminate.
  assert (Hd2 : S754_zero sx * S754_zero sx + S754_zero sy * S754_zero sy = 0)
    by (destruct sx, sy; reflexivity).
  rewrite Hd2.
  destruct (0 <? (r + radius) * (r + radius)); [|reflexivity].
  change (Math_sqrt 0) with 0.
  change (S754_zero sx / 0) with NaN. change (S754_zero sy / 0) with NaN.
  unfold NaN_hit. now nan.
Qed.

(** X4.  Two circles with the same finite centre: the static test
    returns [null] when the square of the sum of the radii is not
    positive, and otherwise a hit whose delta, normal and pos are NaN.
    The same holds for the test of a circle on its own centre. *)
Theorem CircleCollider_concentric_hit_is_NaN :
  forall cx cy r1 r2 : number,
    is_finite cx = true -> is_finite cy = true ->
    CircleCollider_circleIntersection
      (new_CircleCollider cx cy r1) (new_CircleCollider cx cy r2)
    = (if 0 <? (r1 + r2) * (r1 + r2) then Some NaN_hit else None)
    /\ CircleCollider_pointIntersection
         (new_CircleCollider cx cy r1) (new_Point2D cx cy)
       = (if 0 <? (r1 + 0) * (r1 + 0) then Some NaN_hit else None).
Proof.
  intros cx cy r1 r2 Hcx Hcy. split.
  - apply CircleCollider_intersection_same_centre; auto using near_refl.
  - apply CircleCollider_intersection_same_centre; auto using near_refl.
Qed.

Lemma CircleCollider_concentric_hit_is_NaN_witness :
  CircleCollider_circleIntersection unit_circle unit_circle = Some NaN_hit.
Proof.
  exact (proj1 (CircleCollider_concentric_hit_is_NaN 0 0 1 1 eq_refl eq_refl)).
Defined.

(** ** Math.clamp *)

Lemma Math_min_cases (a b : number) :
  is_nan a = false -> is_nan b = false ->
  (Math_min a b = a \/ Math_min a b = b)
  /\ (Math_min a b <=? b) = true.
Proof.
  intros Ha Hb. unfold Math_min, le, SFleb.
  destruct (SFcompare a b) as [[]|] eqn:E.
  - destruct a as [[]| | |]; (split; [auto|]);
      try (now rewrite E); now rewrite SFcompare_refl.
  - split; [auto|]. now rewrite E.
  - split; [auto|]. now rewrite SFcompare_refl.
  - destruct a, b; try discriminate; cbn in E; discriminate.
Qed.

Lemma Math_max_cases (a b : number) :
  is_nan a = false -> is_nan b = false ->
  (Math_max a b = a \/ Math_max a b = b)
  /\ (a <=? Math_max a b) = true.
Proof.
  intros Ha Hb. unfold Math_max, le, SFleb.
  destruct (SFcompare a b) as [[]|] eqn:E.
  - destruct a as [[]| | |]; (split; [auto|]);
      try (now rewrite E); now rewrite SFcompare_refl.
  - split; [auto|]. now rewrite E.
  - split; [auto|]. now rewrite SFcompare_refl.
  - destruct a, b; try discriminate; cbn in E; discriminate.
Qed.

Lemma le_not_nan (a b : number) :
  (a <=? b) = true -> is_nan a = false /\ is_nan b = false.
Proof. destruct a, b; cbn; intros H; try discriminate; auto. Qed.

(** X5.  With bounds in order, [Math.clamp] of a number that is not NaN
    lies within the bounds, and is the number itself when that lies
    strictly between them; [Math.clamp] of NaN is NaN. *)
Theorem Math_clamp_within_bounds :
  forall val min max : number,
    (min <=? max) = true ->
    (is_nan val = false ->
     (min <=? Math_clamp val min max) = true
     /\ (Math_clamp val min max <=? max) = true)
    /\ ((min <? val) = true -> (val <? max) = true ->
        Math_clamp val min max = val)
    /\ Math_clamp NaN min max = NaN.
Proof.
  intros val lo hi Hle.
  destruct (le_not_nan lo hi Hle) as [Hlo Hhi].
  repeat split.
  - apply Math_max_cases; [assumption|].
    destruct (Math_min_cases val hi H Hhi) as [[->| ->] _]; assumption.
  - unfold Math_clamp.
    destruct (Math_min_cases val hi H Hhi) as [Hm Hmle].
    assert (Hmn : is_nan (Math_min val hi) = false)
      by (destruct Hm as [->| ->]; assumption).
    destruct (Math_max_cases lo (Math_min val hi) Hlo Hmn) as [[->| ->] _];
      assumption.
  - intros H1 H2. unfold Math_clamp, Math_min, Math_max.
    unfold lt, SFltb in H1, H2.
    destruct (SFcompare val hi) as [[]|]; try discriminate.
    destruct (SFcompare lo val) as [[]|]; try discriminate. reflexivity.
  - unfold Math_clamp. destruct lo; reflexivity.
Qed.

Lemma Math_clamp_within_bounds_witness :
  (0 <=? Math_clamp (of_Z 5) 0 1) = true
  /\ (Math_clamp (of_Z 5) 0 1 <=? 1) = true.
Proof.
  exact (proj1 (Math_clamp_within_bounds (of_Z 5) 0 1 eq_refl) eq_refl).
Defined.

(** ** Vector2D *)

Lemma binary_round_aux_sign_clear (m e : Z) (l : location) :
  sign_clear (binary_round_aux prec emax false m e l) = true.
Proof.
  unfold binary_round_aux.
  destruct (shr_fexp prec emax m e l) as [mrs e1].
  destruct (shr_fexp prec emax _ e1 loc_Exact) as [mrs2 e2].
  destruct (shr_m mrs2); try reflexivity.
  destruct (e2 <=? emax - prec)%Z; reflexivity.
Qed.

Lemma binary_round_sign_clear (m : positive) (e : Z) :
  sign_clear (binary_round prec emax false m e) = true.
Proof.
  unfold binary_round.
  destruct (shl_align m e _) as [mz ez]. apply binary_round_aux_sign_clear.
Qed.

Lemma mul_self_sign_clear (a : number) : sign_clear (a * a) = true.
Proof.
  destruct a as [[]|[]| |s m e]; try reflexivity.
  unfold mul. cbn [SFmul]. rewrite xorb_nilpotent.
  apply binary_round_aux_sign_clear.
Qed.

Lemma add_sign_clear (a b : number) :
  sign_clear a = true -> sign_clear b = true -> sign_clear (a + b) = true.
Proof.
  destruct a as [[]|[]| |[] ma ea], b as [[]|[]| |[] mb eb];
    intros Ha Hb; try discriminate; try reflexivity.
  unfold add. cbn [SFadd cond_Zopp].
  set (za := fst (shl_align ma ea (Z.min ea eb))).
  set (zb := fst (shl_align mb eb (Z.min ea eb))).
  change (Z.pos za + Z.pos zb)%Z with (Z.pos (za + zb)).
  cbn [binary_normalize]. apply binary_round_sign_clear.
Qed.

Lemma Math_sqrt_sign_clear (a : number) :
  sign_clear a = true -> sign_clear (Math_sqrt a) = true.
Proof.
  destruct a as [[]|[]| |[] m e]; intros H; try discriminate; try reflexivity.
  unfold Math_sqrt. cbn [SFsqrt].
  destruct (SFsqrt_core_binary prec emax (Z.pos m) e) as [[mz ez] lz].
  apply binary_round_aux_sign_clear.
Qed.

Lemma sign_clear_not_lt_0 (a : number) :
  sign_clear a = true -> (a <? 0) = false.
Proof. destruct a as [[]|[]| |[] m e]; intros H; try discriminate; reflexivity. Qed.

(** X6.  The magnitude of a vector and the distance of two points are
    never negative and never [-0]: each is NaN or has a clear sign bit.
    In particular neither is less than 0. *)
Theorem magnitude_and_distance_not_negative :
  forall (v : Vector2D) (a b : Point2D),
    sign_clear (Vector2D_magnitude v) = true
    /\ (Vector2D_magnitude v <? 0) = false
    /\ sign_clear (Point2D_distanceTo a b) = true
    /\ (Point2D_distanceTo a b <? 0) = false.
Proof.
  intros v a b.
  assert (Hm : sign_clear (Vector2D_magnitude v) = true).
  { unfold Vector2D_magnitude.
    apply Math_sqrt_sign_clear, add_sign_clear; apply mul_self_sign_clear. }
  assert (Hd : sign_clear (Point2D_distanceTo a b) = true).
  { unfold Point2D_distanceTo. cbv zeta.
    apply Math_sqrt_sign_clear, add_sign_clear; apply mul_self_sign_clear. }
  auto using sign_clear_not_lt_0.
Qed.

(** X7.  Normalizing a vector whose two components are zeros divides 0
    by 0: both components become NaN, and setting the magnitude of such
    a vector gives (NaN, NaN) whatever the new magnitude. *)
Theorem Vector2D_normalize_zero_vector :
  forall (s1 s2 : bool) (val : number),
    let zero_vector := new_Vector2D (S754_zero s1) (S754_zero s2) in
    Vector2D_magnitude zero_vector = 0
    /\ Vector2D_normalize zero_vector = new_Vector2D NaN NaN
    /\ Vector2D_set_magnitude zero_vector val = new_Vector2D NaN NaN.
Proof.
  intros s1 s2 val zero_vector.
  assert (Hn : Vector2D_normalize zero_vector = new_Vector2D NaN NaN)
    by (destruct s1, s2; reflexivity).
  repeat split.
  - destruct s1, s2; reflexivity.
  - exact Hn.
  - unfold Vector2D_set_magnitude. rewrite Hn. reflexivity.
Qed.

(** ** Boxes *)

Lemma Math_sign_neg (d : number) : Math_sign (- d) = - Math_sign d.
Proof. destruct d as [[]|[]| |[] m e]; reflexivity. Qed.

Lemma opposite_zero_or_NaN (v : number) : zero_or_NaN v -> opposite v v.
Proof.
  intros [->|H]; [now left|right; now split].
Qed.

(** The displacements along one axis for the two orders of the boxes. *)
Lemma opposite_displacement (p a b : number) :
  opposite (p * Math_sign (b - a)) (p * Math_sign (a - b)).
Proof.
  destruct (sub_antisym b a) as [->|[-> ->]].
  - left. now rewrite Math_sign_neg, mul_neg_r.
  - apply opposite_zero_or_NaN. cbn [Math_sign]. apply mul_zero_r.
Qed.

Lemma penetrationX_symmetric (a b : AABBCollider) :
  penetrationX a b = penetrationX b a.
Proof.
  unfold penetrationX, centreDeltaX.
  now rewrite (add_comm (_rX b) (_rX a)), (Math_abs_sub_comm (_x a) (_x b)).
Qed.

Lemma penetrationY_symmetric (a b : AABBCollider) :
  penetrationY a b = penetrationY b a.
Proof.
  unfold penetrationY, centreDeltaY.
  now rewrite (add_comm (_rY b) (_rY a)), (Math_abs_sub_comm (_y a) (_y b)).
Qed.

(** X8.  The static test of two boxes is symmetric: the penetrations are
    the same for both orders of the boxes, one order returns [null]
    exactly when the other does, and the two displacements are opposite
    (up to the sign of a zero component). *)
Theorem AABBCollider_boxIntersection_symmetric :
  forall a b : AABBCollider,
    penetrationX a b = penetrationX b a
    /\ penetrationY a b = penetrationY b a
    /\ (AABBCollider_boxIntersection a b = None
        <-> AABBCollider_boxIntersection b a = None)
    /\ forall hab hba : HitInfo,
         AABBCollider_boxIntersection a b = Some hab ->
         AABBCollider_boxIntersection b a = Some hba ->
         opposite (_x (delta hab)) (_x (delta hba))
         /\ opposite (_y (delta hab)) (_y (delta hba)).
Proof.
  intros a b.
  split; [apply penetrationX_symmetric|].
  split; [apply penetrationY_symmetric|].
  rewrite !AABBCollider_boxIntersection_eq. cbv zeta.
  rewrite (penetrationX_symmetric b a), (penetrationY_symmetric b a).
  set (pX := penetrationX a b). set (pY := penetrationY a b).
  assert (H00 : opposite 0 0) by (right; now split).
  destruct (pX <=? 0); [split; [tauto | discriminate]|].
  destruct (pY <=? 0); [split; [tauto | discriminate]|].
  destruct (pX <=? pY).
  - split; [split; discriminate|].
    intros hab hba Hab Hba. injection Hab as <-. injection Hba as <-.
    cbn [delta _x _y]. split; [|exact H00].
    apply opposite_displacement.
  - split; [split; discriminate|].
    intros hab hba Hab Hba. injection Hab as <-. injection Hba as <-.
    cbn [delta _x _y]. split; [exact H00|].
    apply opposite_displacement.
Qed.

Lemma AABBCollider_boxIntersection_symmetric_witness :
  exists hab hba : HitInfo,
    AABBCollider_boxIntersection unit_box box_R = Some hab
    /\ AABBCollider_boxIntersection box_R unit_box = Some hba
    /\ opposite (_x (delta hab)) (_x (delta hba))
    /\ opposite (_y (delta hab)) (_y (delta hba)).
Proof.
  eexists. eexists. split; [reflexivity|]. split; [reflexivity|].
  exact (proj2 (proj2 (proj2 (AABBCollider_boxIntersection_symmetric unit_box box_R)))
           _ _ eq_refl eq_refl).
Defined.

(** The time of a hit, clamped from an entry time that is not 1 or
    more. *)
Lemma Math_clamp_entry_time (nearTime : number) :
  (nearTime >=? 1) = false ->
  (Math_clamp nearTime 0 1 <? 0) = false
  /\ (Math_clamp nearTime 0 1 >=? 1) = false.
Proof.
  intros H.
  destruct (is_nan nearTime) eqn:Hn.
  { destruct nearTime; try discriminate. split; reflexivity. }
  pose proof (not_ge_lt nearTime 1 Hn eq_refl H) as Hlt.
  unfold Math_clamp, Math_min. unfold lt, SFltb in Hlt.
  destruct (SFcompare nearTime 1) as [[]|]; try discriminate.
  unfold Math_max.
  destruct (SFcompare 0 nearTime) as [[]|] eqn:E.
  - split; reflexivity.
  - split; [|exact H].
    unfold lt, SFltb. rewrite (SFcompare_antisym 0 nearTime), E. reflexivity.
  - split; reflexivity.
  - destruct nearTime; try discriminate; cbn in E; discriminate.
Qed.

(** X9.  Every hit of [vectorIntersection], in either version, has a
    time that is not below 0 and not 1 or more. *)
Theorem vectorIntersection_time_in_unit_interval :
  forall (this : AABBCollider) (origin : Point2D) (vector : Vector2D)
         (pX pY : number) (hit : HitInfo),
    AABBCollider_vectorIntersection this origin vector pX pY = Some hit
    \/ BoundingBox_vectorIntersection this origin vector pX pY = Some hit ->
    exists t : number,
      time hit = Some t /\ (t <? 0) = false /\ (t >=? 1) = false.
Proof.
  intros this origin vector pX pY hit.
  unfold AABBCollider_vectorIntersection, BoundingBox_vectorIntersection.
  set (s := slab_times this origin vector pX pY). cbv zeta.
  destruct ((nearTimeX s >? farTimeY s) || (nearTimeY s >? farTimeX s));
    [intros [H|H]; discriminate|].
  intros [H|H];
    destruct (AABBCollider_nearTime s >=? 1) eqn:Hn; try discriminate;
    cbn [orb] in H;
    match type of H with
    | (if ?c then _ else _) = _ => destruct c; try discriminate
    end;
    injection H as <-; eexists; (split; [reflexivity|]);
    now apply Math_clamp_entry_time.
Qed.

Lemma vectorIntersection_time_in_unit_interval_witness :
  exists (hit : HitInfo) (t : number),
    AABBCollider_vectorIntersection (new_AABBCollider five 0 1 1)
      (new_Point2D 0 0) (new_Vector2D ten (five * quarter)) 0 0 = Some hit
    /\ time hit = Some t /\ (t <? 0) = false /\ (t >=? 1) = false.
Proof.
  eexists.
  destruct (vectorIntersection_time_in_unit_interval
              (new_AABBCollider five 0 1 1) (new_Point2D 0 0)
              (new_Vector2D ten (five * quarter)) 0 0 _ (or_introl eq_refl))
    as [t Ht].
  exists t. split; [reflexivity | exact Ht].
Defined.

Lemma not_le_0_lt (a b : number) :
  (a <=? 0) = false -> (a <? b) = true -> (b <=? 0) = false.
Proof.
  destruct a as [[]|[]| |[] ma ea], b as [[]|[]| |[] mb eb];
    cbn; intros H1 H2; try discriminate; reflexivity.
Qed.

(** X10.  The later version of the slab method only removes hits: every
    hit of [AABBCollider.vectorIntersection] is returned unchanged by
    [BoundingBox.vectorIntersection]. *)
Theorem AABBCollider_vectorIntersection_refines_BoundingBox :
  forall (this : AABBCollider) (origin : Point2D) (vector : Vector2D)
         (pX pY : number) (hit : HitInfo),
    AABBCollider_vectorIntersection this origin vector pX pY = Some hit ->
    BoundingBox_vectorIntersection this origin vector pX pY = Some hit.
Proof.
  intros this origin vector pX pY hit.
  unfold AABBCollider_vectorIntersection, BoundingBox_vectorIntersection.
  set (s := slab_times this origin vector pX pY). cbv zeta.
  destruct ((nearTimeX s >? farTimeY s) || (nearTimeY s >? farTimeX s));
    [discriminate|].
  destruct (AABBCollider_nearTime s >=? 1); [discriminate|]. cbn [orb].
  unfold AABBCollider_farTime, BoundingBox_farTime, gt.
  destruct (farTimeX s <? farTimeY s) eqn:Hxy.
  - destruct (farTimeX s <=? 0) eqn:Hx; [discriminate|]. intros H.
    destruct (SFltb (farTimeY s) (farTimeX s)); [now rewrite Hx|].
    now rewrite (not_le_0_lt _ _ Hx Hxy).
  - destruct (farTimeY s <=? 0) eqn:Hy; [discriminate|]. intros H.
    destruct (SFltb (farTimeY s) (farTimeX s)) eqn:Hyx.
    + now rewrite (not_le_0_lt _ _ Hy Hyx).
    + now rewrite Hy.
Qed.

Lemma AABBCollider_vectorIntersection_refines_BoundingBox_witness :
  exists hit : HitInfo,
    AABBCollider_vectorIntersection (new_AABBCollider five 0 1 1)
      (new_Point2D 0 0) (new_Vector2D ten (five * quarter)) 0 0 = Some hit
    /\ BoundingBox_vectorIntersection (new_AABBCollider five 0 1 1)
         (new_Point2D 0 0) (new_Vector2D ten (five * quarter)) 0 0 = Some hit.
Proof.
  eexists. split; [reflexivity|].
  apply AABBCollider_vectorIntersection_refines_BoundingBox. reflexivity.
Defined.

Lemma neg_add_self (v : number) : is_finite v = true -> (- v) + v = 0.
Proof.
  destruct v as [[]|[]| |s m e]; intros H; try discriminate; try reflexivity.
  unfold add. cbn [neg SFopp SFadd]. unfold shl_align.
  rewrite Z.min_id, !Z.sub_diag. cbn [fst].
  replace (cond_Zopp (negb s) (Z.pos m) + cond_Zopp s (Z.pos m))%Z with 0%Z
    by (destruct s; cbn [negb cond_Zopp]; lia).
  reflexivity.
Qed.

(** The displacement left to a sweep whose hit has time 0. *)
Lemma add_to_delta_at_time_0 (s : SlabTimes) (nearTime : number)
    (origin : Point2D) (vector : Vector2D) :
  valid (_x vector) = true -> valid (_y vector) = true ->
  is_finite (_x vector) = true -> is_finite (_y vector) = true ->
  (Math_clamp nearTime 0 1 === 0) = true ->
  delta (add_to_delta (slab_hit s nearTime origin vector) vector)
  = new_Point2D 0 0.
Proof.
  intros Hvx Hvy Hfx Hfy Ht.
  unfold add_to_delta, slab_hit. cbn [delta _x _y].
  destruct (Math_clamp nearTime 0 1) as [st|[]| |[] m e]; try discriminate.
  replace (1 - S754_zero st) with 1 by (destruct st; reflexivity).
  rewrite !(mul_comm 1).
  change (?a * 1) with (mul a (of_Z 1)).
  rewrite !mul_one_r by now apply neg_valid.
  change (neg ?a) with (- a).
  now rewrite !neg_add_self.
Qed.

(** X11.  When a sweep of a box or of a circle against a box reports a
    hit at time 0, the displacement left to the moving collider is
    (0, 0), for every finite movement vector. *)
Theorem AABBCollider_sweep_hit_at_time_0 :
  forall (this box : AABBCollider) (circle : CircleCollider)
         (vector : Vector2D) (hit : HitInfo) (t : number),
    valid (_x vector) = true -> valid (_y vector) = true ->
    is_finite (_x vector) = true -> is_finite (_y vector) = true ->
    AABBCollider_sweptBoxIntersection this box vector = Some hit
    \/ AABBCollider_sweptCircleIntersection this circle vector = Some hit ->
    time hit = Some t -> (t === 0) = true ->
    delta hit = new_Point2D 0 0.
Proof.
  intros this box circle vector hit t Hvx Hvy Hfx Hfy H Ht H0.
  unfold AABBCollider_sweptBoxIntersection, AABBCollider_sweptCircleIntersection,
    AABBCollider_circleIntersection in H.
  destruct ((_x vector === 0) && (_y vector === 0)).
  - exfalso. unfold AABBCollider_intersection in H.
    destruct H as [H|H];
      repeat match type of H with
             | (if ?c then _ else _) = _ => destruct c; try discriminate
             end;
      injection H as <-; discriminate.
  - unfold AABBCollider_vectorIntersection in H.
    destruct H as [H|H];
      repeat match type of H with
             | match (if ?c then _ else _) with _ => _ end = _ =>
                 destruct c; try discriminate
             end;
      injection H as <-; injection Ht as <-;
      now apply add_to_delta_at_time_0.
Qed.

Lemma AABBCollider_sweep_hit_at_time_0_witness :
  exists hit : HitInfo,
    AABBCollider_sweptBoxIntersection unit_box box_R (new_Vector2D 1 0) = Some hit
    /\ time hit = Some 0
    /\ delta hit = new_Point2D 0 0.
Proof.
  eexists. split; [reflexivity|]. split; [reflexivity|].
  apply (AABBCollider_sweep_hit_at_time_0 unit_box box_R unit_circle
           (new_Vector2D 1 0) _ 0 eq_refl eq_refl eq_refl eq_refl
           (or_introl eq_refl) eq_refl eq_refl).
Defined.

(** Boxes that only touch: the static test finds no overlap, and the
    sweep still reports a hit at time 0 with no displacement left. *)
Lemma AABBCollider_sweep_touching_boxes :
  let box := new_AABBCollider 2 0 1 1 in
  let vector := new_Vector2D (of_Z (-1)) 0 in
  AABBCollider_boxIntersection unit_box box = None
  /\ penetrationX unit_box box = 0
  /\ exists hit : HitInfo,
       AABBCollider_sweptBoxIntersection unit_box box vector = Some hit
       /\ time hit = Some 0
       /\ delta hit = new_Point2D 0 0.
Proof.
  cbv zeta. split; [reflexivity|]. split; [reflexivity|].
  eexists. split; [reflexivity|]. split; reflexivity.
Qed.

(** ** BoundingBox *)

(** X12.  [BoundingBox.pointIntersection] never returns a hit along y.
    For a point inside the box it returns a hit along x when the
    penetration on x is the smaller one, and otherwise throws a
    [ReferenceError], the variable [sX] being out of scope. *)
Theorem BoundingBox_pointIntersection_throws :
  forall (this : BoundingBox) (point : Point2D),
    let pX := _rX this - Math_abs (_x point - _x this) in
    let pY := _rY this - Math_abs (_y point - _y this) in
    (BoundingBox_pointIntersection this point = ReferenceError
     <-> (pX <=? 0) = false /\ (pY <=? 0) = false /\ (pX <? pY) = false)
    /\ (forall hit : BoundingHit,
          BoundingBox_pointIntersection this point = Value (Some hit) ->
          (pX <? pY) = true /\ _y (bdelta hit) = 0)
    /\ (BoundingBox_pointIntersection this point = Value None
        <-> (pX <=? 0) = true \/ (pY <=? 0) = true).
Proof.
  intros this point pX pY.
  unfold BoundingBox_pointIntersection. fold pX pY. cbv zeta.
  destruct (pX <=? 0).
  { repeat split; try discriminate; try tauto. intros (H & _); discriminate. }
  destruct (pY <=? 0).
  { repeat split; try discriminate; try tauto. intros (_ & H & _); discriminate. }
  destruct (pX <? pY).
  - repeat split; try discriminate.
    + intros (_ & _ & H); discriminate.
    + injection H as <-. reflexivity.
    + intros [H|H]; discriminate.
  - repeat split; try discriminate.
    intros [H|H]; discriminate.
Qed.

(** The centre of the unit box is such a point. *)
Lemma BoundingBox_pointIntersection_throws_witness :
  BoundingBox_pointIntersection unit_box (new_Point2D 0 0) = ReferenceError.
Proof.
  apply (proj1 (BoundingBox_pointIntersection_throws unit_box (new_Point2D 0 0))).
  repeat split.
Defined.

(** X13.  [BoundingBox.intersection] and [AABBCollider.boxIntersection]
    return [null] for the same pairs of boxes, and the same delta and
    pos unless the two penetrations are equal; on equal penetrations the
    former resolves along y and the latter along x. *)
Theorem BoundingBox_intersection_and_boxIntersection :
  forall (this box : AABBCollider),
    (BoundingBox_intersection this box = None
     <-> AABBCollider_boxIntersection this box = None)
    /\ forall (bhit : BoundingHit) (hit : HitInfo),
         BoundingBox_intersection this box = Some bhit ->
         AABBCollider_boxIntersection this box = Some hit ->
         if penetrationX this box === penetrationY this box
         then _x (bdelta bhit) = 0 /\ _y (delta hit) = 0
         else bdelta bhit = delta hit
              /\ pos hit = new_Pos (VNum (_x (bpos bhit))) (VNum (_y (bpos bhit)))
              /\ (normal hit = new_Point2D (bnormal bhit) 0
                  \/ normal hit = new_Point2D 0 (bnormal bhit)).
Proof.
  intros this box.
  rewrite AABBCollider_boxIntersection_eq. unfold BoundingBox_intersection.
  fold (centreDeltaX this box) (centreDeltaY this box).
  fold (penetrationX this box) (penetrationY this box). cbv zeta.
  set (pX := penetrationX this box). set (pY := penetrationY this box).
  destruct (pX <=? 0); [split; [tauto | discriminate]|].
  destruct (pY <=? 0); [split; [tauto | discriminate]|].
  rewrite (le_lt_or_eq pX pY).
  destruct (pX <? pY) eqn:Hlt, (pX === pY) eqn:Heq; cbn [orb];
    (split; [split; discriminate|]);
    intros bhit hit Hb Hh; injection Hb as <-; injection Hh as <-;
    cbn [bdelta delta bpos pos bnormal normal _x _y]; auto.
  unfold lt, SFltb in Hlt. unfold strict_eq, SFeqb in Heq.
  destruct (SFcompare pX pY) as [[]|]; discriminate.
Qed.

Lemma BoundingBox_intersection_and_boxIntersection_witness :
  exists (bhit : BoundingHit) (hit : HitInfo),
    BoundingBox_intersection unit_box box_R = Some bhit
    /\ AABBCollider_boxIntersection unit_box box_R = Some hit
    /\ bdelta bhit = delta hit.
Proof.
  eexists. eexists. split; [reflexivity|]. split; [reflexivity|].
  pose proof (proj2 (BoundingBox_intersection_and_boxIntersection unit_box box_R)
                _ _ eq_refl eq_refl) as H.
  change (penetrationX unit_box box_R === penetrationY unit_box box_R)
    with false in H.
  exact (proj1 H).
Defined.

(** ** Segments and circles *)

(** X14.  [CircleCollider.vectorIntersection] reports no hit for a
    segment whose end point lies outside the padded circle, and so does
    the sweep of a circle: a segment that crosses the circle from side
    to side is not detected. *)
Theorem CircleCollider_vectorIntersection_end_outside :
  forall (this circle : CircleCollider) (origin : Point2D)
         (vector : Vector2D) (padding : number),
    let endX := (_x origin + _x vector) - _x this in
    let endY := (_y origin + _y vector) - _y this in
    let r2 := (_radius this + padding) * (_radius this + padding) in
    ((endX * endX + endY * endY) >? r2) = true ->
    CircleCollider_vectorIntersection this origin vector padding = None
    /\ (origin = circle -> padding = _radius circle ->
        CircleCollider_sweptCircleIntersection this circle vector = None).
Proof.
  intros this circle origin vector padding endX endY r2 H.
  assert (Hv : CircleCollider_vectorIntersection this origin vector padding = None).
  { unfold CircleCollider_vectorIntersection. cbv zeta. cbn [_x _y].
    fold endX endY r2. rewrite H.
    destruct (_ <? r2); reflexivity. }
  split; [exact Hv|].
  intros Ho Hp. unfold CircleCollider_sweptCircleIntersection.
  rewrite <- Ho, <- Hp, Hv. reflexivity.
Qed.

(** The segment from (-2, 0) along (4, 0) passes through the centre of
    the unit circle. *)
Lemma CircleCollider_vectorIntersection_end_outside_witness :
  CircleCollider_vectorIntersection unit_circle
    (new_Point2D (of_Z (-2)) 0) (new_Vector2D (of_Z 4) 0) 0 = None.
Proof.
  apply (proj1 (CircleCollider_vectorIntersection_end_outside
                  unit_circle unit_circle
                  (new_Point2D (of_Z (-2)) 0) (new_Vector2D (of_Z 4) 0) 0 eq_refl)).
Defined.

(** The first half of the same segment ends at the centre and hits the
    circle at (-1, 0). *)
Example CircleCollider_vectorIntersection_end_inside :
  CircleCollider_vectorIntersection unit_circle
    (new_Point2D (of_Z (-2)) 0) (new_Vector2D 2 0) 0
  = Some {| time := None;
            delta := new_Point2D 1 0;
            normal := new_Point2D (of_Z (-1)) 0;
            pos := new_Pos (VNum (of_Z (-1))) (VNum 0) |}.
Proof. reflexivity. Qed.

(** ** Ray2D.cast *)

Section CastInvariants.

Variable map : TileMap2D.
Variables oX oY vX vY dX dY sX sY : number.

Let loop := cast_loop map oX oY vX vY dX dY sX sY.

Lemma cast_loop_result (fuel i : nat) (st : CastState) :
  match snd (loop fuel i st) with
  | Hit h => (i < fst (loop fuel i st) <= i + fuel)%nat
             /\ _blocking (tile h) = true
  | NoHit => fst (loop fuel i st) = (i + fuel)%nat
  end.
Proof.
  subst loop. revert i st.
  induction fuel as [|fuel IH]; intros i st; cbn [cast_loop].
  - cbn [fst snd]. lia.
  - destruct (stepDistX st <? stepDistY st).
    + destruct (_blocking (getTile map (mapPosX st + sX) (mapPosY st))) eqn:Hb.
      * cbn [fst snd tile]. split; [lia | exact Hb].
      * match goal with |- context [cast_loop _ _ _ _ _ _ _ _ _ fuel (S i) ?st'] =>
          specialize (IH (S i) st')
        end.
        destruct (snd (cast_loop _ _ _ _ _ _ _ _ _ fuel (S i) _));
          [destruct IH; split; [lia | assumption] | lia].
    + destruct (_blocking (getTile map (mapPosX st) (mapPosY st + sY))) eqn:Hb.
      * cbn [fst snd tile]. split; [lia | exact Hb].
      * match goal with |- context [cast_loop _ _ _ _ _ _ _ _ _ fuel (S i) ?st'] =>
          specialize (IH (S i) st')
        end.
        destruct (snd (cast_loop _ _ _ _ _ _ _ _ _ fuel (S i) _));
          [destruct IH; split; [lia | assumption] | lia].
Qed.

Lemma cast_loop_more_fuel (fuel extra i : nat) (st : CastState) (h : RayHit) :
  snd (loop fuel i st) = Hit h ->
  loop (fuel + extra) i st = loop fuel i st.
Proof.
  subst loop. revert i st.
  induction fuel as [|fuel IH]; intros i st; cbn [cast_loop Nat.add].
  - discriminate.
  - destruct (stepDistX st <? stepDistY st).
    + destruct (_blocking (getTile map (mapPosX st + sX) (mapPosY st)));
        [reflexivity | apply IH].
    + destruct (_blocking (getTile map (mapPosX st) (mapPosY st + sY)));
        [reflexivity | apply IH].
Qed.

End CastInvariants.

(** X15.  [cast] returns a hit only for a blocking tile, found within
    the range, and returns the no-hit value only after exactly [range]
    steps. *)
Theorem Ray2D_cast_result :
  forall (ray : Ray2D) (map : TileMap2D) (range : nat),
    match Ray2D_cast ray map range with
    | Hit h => (1 <= fst (Ray2D_cast_steps ray map range) <= range)%nat
               /\ _blocking (tile h) = true
    | NoHit => fst (Ray2D_cast_steps ray map range) = range
    end.
Proof.
  intros ray map range. unfold Ray2D_cast, Ray2D_cast_steps.
  destruct (_x (_vector ray) <? 0), (_y (_vector ray) <? 0);
    match goal with
    | |- context [cast_loop ?m ?a ?b ?c ?d ?e ?f ?g ?h range 0 ?st] =>
        pose proof (cast_loop_result m a b c d e f g h range 0 st) as H;
        destruct (snd (cast_loop m a b c d e f g h range 0 st))
    end; cbn [Nat.add] in H; try exact H;
    destruct H as [H1 H2]; (split; [lia | exact H2]).
Qed.

(** X16.  Once [cast] finds a wall within a range, a larger range gives
    the same hit after the same number of steps. *)
Theorem Ray2D_cast_larger_range :
  forall (ray : Ray2D) (map : TileMap2D) (range extra : nat) (h : RayHit),
    Ray2D_cast ray map range = Hit h ->
    Ray2D_cast_steps ray map (range + extra) = Ray2D_cast_steps ray map range
    /\ Ray2D_cast ray map (range + extra) = Hit h.
Proof.
  intros ray map range extra h H.
  assert (Hs : Ray2D_cast_steps ray map (range + extra)
               = Ray2D_cast_steps ray map range).
  { unfold Ray2D_cast in H. unfold Ray2D_cast_steps in *.
    destruct (_x (_vector ray) <? 0), (_y (_vector ray) <? 0);
      eapply cast_loop_more_fuel; exact H. }
  split; [exact Hs|]. unfold Ray2D_cast. now rewrite Hs.
Qed.

Lemma Ray2D_cast_larger_range_witness :
  Ray2D_cast (mk_Ray2D (new_Point2D half half) (new_Vector2D 1 0))
    one_wall_map (3 + 12)
  = Hit {| tile := wall_tile; offset := half;
           axis := axis_x; distance := two_and_a_half |}.
Proof.
  apply (Ray2D_cast_larger_range
           (mk_Ray2D (new_Point2D half half) (new_Vector2D 1 0))
           one_wall_map 3 12).
  reflexivity.
Defined.

(** ** RayCamera2D.rayCast *)

Lemma set_nth_length {A : Type} (l : list A) (n : nat) (v : A) :
  length (set_nth l n v) = length l.
Proof.
  revert n. induction l as [|a l IH]; intros [|n]; cbn; auto.
Qed.

Lemma nth_error_set_nth_eq {A : Type} (l : list A) (n : nat) (v : A) :
  (n < length l)%nat -> nth_error (set_nth l n v) n = Some v.
Proof.
  revert n. induction l as [|a l IH]; intros [|n] H; cbn in *; try lia; auto.
  apply IH. lia.
Qed.

Lemma nth_error_set_nth_neq {A : Type} (l : list A) (n i : nat) (v : A) :
  i <> n -> nth_error (set_nth l n v) i = nth_error l i.
Proof.
  revert n i. induction l as [|a l IH]; intros [|n] [|i] H; cbn; auto;
    try contradiction.
Qed.

Lemma rayCast_loop_scene (this : RayCamera2D) (map : TileMap2D)
    (todo column : nat) (ray : Ray2D) (scene : list (option CastResult)) :
  length scene = (column + todo)%nat ->
  let result := rayCast_loop this map todo column ray scene in
  length (snd result) = length scene
  /\ _origin (fst result) = _origin ray
  /\ forall i : nat,
       ((i < column)%nat -> nth_error (snd result) i = nth_error scene i)
       /\ ((column <= i < column + todo)%nat ->
           nth_error (snd result) i
           = Some (Some (Ray2D_cast
                           (mk_Ray2D (_origin ray) (column_vector this i))
                           map (_range this)))).
Proof.
  revert column ray scene.
  induction todo as [|todo IH]; intros column ray scene Hlen; cbn [rayCast_loop].
  - cbn [fst snd]. repeat split; auto. lia.
  - set (ray' := Ray2D_set_vector ray _ _).
    set (scene' := set_nth scene column _).
    assert (Hlen' : length scene' = (S column + todo)%nat)
      by (subst scene'; rewrite set_nth_length; lia).
    destruct (IH (S column) ray' scene' Hlen') as (HL & HO & HI).
    cbv zeta in *. split; [|split].
    + rewrite HL. subst scene'. apply set_nth_length.
    + rewrite HO. reflexivity.
    + intros i. destruct (HI i) as [Hlt Hge]. split.
      * intros Hi. rewrite Hlt by lia. subst scene'.
        apply nth_error_set_nth_neq. lia.
      * intros Hi. destruct (Nat.eq_dec i column) as [->|Hne].
        -- rewrite Hlt by lia. subst scene'.
           rewrite nth_error_set_nth_eq by lia. reflexivity.
        -- rewrite Hge by lia. reflexivity.
Qed.

(** The scene after [rayCast]. *)
Lemma RayCamera2D_rayCast_scene (this : RayCamera2D) (map : TileMap2D) :
  length (_scene (RayCamera2D_rayCast this map)) = length (_scene this)
  /\ forall column : nat,
       (column < length (_scene this))%nat ->
       nth_error (_scene (RayCamera2D_rayCast this map)) column
       = Some (Some (Ray2D_cast
                       (mk_Ray2D (new_Point2D (_x (_position this))
                                              (_y (_position this)))
                                 (column_vector this column))
                       map (_range this))).
Proof.
  unfold RayCamera2D_rayCast, RayCamera2D_rayCast_ray. cbn [_scene].
  destruct (rayCast_loop_scene this map (length (_scene this)) 0
              (new_Ray2D (_position this) (_direction this)) (_scene this)
              eq_refl) as (HL & _ & HI).
  split; [exact HL|].
  intros column Hc. destruct (HI column) as [_ H]. apply H. lia.
Qed.

(** X17.  [rayCast] keeps the number of columns and fills every column:
    after the call, column [i] of the scene holds the result of casting,
    from the position of the camera, the ray whose vector is the one
    computed for column [i]. *)
Theorem RayCamera2D_rayCast_fills_scene :
  forall (this : RayCamera2D) (map : TileMap2D),
    let after := RayCamera2D_rayCast this map in
    length (_scene after) = length (_scene this)
    /\ forall column : nat,
         (column < length (_scene this))%nat ->
         nth_error (_scene after) column
         = Some (Some (Ray2D_cast
                         (mk_Ray2D (new_Point2D (_x (_position this))
                                                (_y (_position this)))
                                   (column_vector this column))
                         map (_range this))).
Proof.
  intros this map after. subst after. apply RayCamera2D_rayCast_scene.
Qed.

Lemma RayCamera2D_rayCast_fills_scene_witness :
  nth_error (_scene (RayCamera2D_rayCast single_column_camera one_wall_map)) 0
  = Some (Some (Ray2D_cast
                  (mk_Ray2D (new_Point2D half half)
                            (column_vector single_column_camera 0))
                  one_wall_map 15)).
Proof.
  apply (proj2 (RayCamera2D_rayCast_fills_scene single_column_camera one_wall_map) 0%nat).
  cbn. lia.
Defined.

(** X18.  A camera built for [columns] columns has that many columns,
    and so has a camera whose column count was set to [columns]; in both
    cases [rayCast] then produces exactly [columns] results and leaves no
    column empty. *)
Theorem RayCamera2D_column_count :
  forall (position : Point2D) (direction : Vector2D) (fov : option number)
         (range : option nat) (this : RayCamera2D) (map : TileMap2D)
         (columns : nat),
    let built := new_RayCamera2D position direction columns fov range in
    let resized := RayCamera2D_set_columns this columns in
    length (_scene built) = columns
    /\ length (_scene resized) = columns
    /\ length (_scene (RayCamera2D_rayCast built map)) = columns
    /\ length (_scene (RayCamera2D_rayCast resized map)) = columns
    /\ ~ In None (_scene (RayCamera2D_rayCast built map))
    /\ ~ In None (_scene (RayCamera2D_rayCast resized map)).
Proof.
  intros position direction fov range this map columns built resized.
  assert (Hb : length (_scene built) = columns) by apply repeat_length.
  assert (Hr : length (_scene resized) = columns).
  { subst resized. unfold RayCamera2D_set_columns. cbn [_scene].
    rewrite length_app, length_firstn, repeat_length. lia. }
  assert (Hfull : forall cam : RayCamera2D,
             ~ In None (_scene (RayCamera2D_rayCast cam map))).
  { intros cam Hin. apply In_nth_error in Hin. destruct Hin as [i Hi].
    destruct (RayCamera2D_rayCast_scene cam map) as [HL HI].
    assert (Hlt : (i < length (_scene cam))%nat).
    { rewrite <- HL. apply nth_error_Some. rewrite Hi. discriminate. }
    rewrite (HI i Hlt) in Hi. discriminate. }
  split; [exact Hb|]. split; [exact Hr|].
  split; [now rewrite (proj1 (RayCamera2D_rayCast_scene built map))|].
  split; [now rewrite (proj1 (RayCamera2D_rayCast_scene resized map))|].
  split; apply Hfull.
Qed.

(** ** The hit of two circles *)

Lemma sub_add_neg (a b : number) : a - b = a + - b.
Proof.
  destruct a as [sa|sa| |sa ma ea], b as [sb|sb| |sb mb eb];
    unfold sub, add; cbn [SFsub SFadd neg SFopp]; try reflexivity;
    try (now destruct sa, sb).
Qed.

(** X19.  In a hit of the circle test, the displacement is the normal
    scaled by the overlap (combined radius less distance), and the
    contact point is the centre of this circle moved along the normal by
    its radius. *)
Theorem CircleCollider_intersection_hit_geometry :
  forall (this : CircleCollider) (x y radius : number) (hit : HitInfo),
    CircleCollider_intersection this x y radius = Some hit ->
    let dx := _x this - x in
    let dy := _y this - y in
    let overlap := (_radius this + radius) - Math_sqrt (dx * dx + dy * dy) in
    delta hit = new_Point2D (_x (normal hit) * overlap) (_y (normal hit) * overlap)
    /\ pos hit = new_Pos (VNum (_x this + _x (normal hit) * _radius this))
                         (VNum (_y this + _y (normal hit) * _radius this))
    /\ time hit = None.
Proof.
  intros this x y radius hit.
  unfold CircleCollider_intersection. cbv zeta. cbn [_x _y].
  destruct (_ <? _); [|discriminate].
  intros H. injection H as <-. cbn [delta normal pos time _x _y].
  now rewrite !mul_neg_l, !sub_add_neg.
Qed.

Lemma CircleCollider_intersection_hit_geometry_witness :
  exists hit : HitInfo,
    CircleCollider_intersection unit_circle half 0 1 = Some hit
    /\ delta hit = new_Point2D (_x (normal hit) * dyadic 3 (-1))
                               (_y (normal hit) * dyadic 3 (-1)).
Proof.
  eexists. split; [reflexivity|].
  exact (proj1 (CircleCollider_intersection_hit_geometry
                  unit_circle half 0 1 _ eq_refl)).
Defined.

(** ** Circle centre inside a box *)

(** X20.  When the closest point of the box is the centre of the circle
    itself (the centre is inside the box), [CircleCollider.boxIntersection]
    never returns [null]: it returns a hit, or throws a [TypeError]
    because one of the two inner tests returned [null]. *)
Theorem CircleCollider_boxIntersection_centre_inside :
  forall (this : CircleCollider) (box : AABBCollider),
    let cPx := _x box + Math_clamp (_x this - _x box) (- _rX box) (_rX box) in
    let cPy := _y box + Math_clamp (_y this - _y box) (- _rY box) (_rY box) in
    (cPx === _x this) && (cPy === _y this) = true ->
    CircleCollider_boxIntersection this box <> Normal None
    /\ (AABBCollider_intersection box (VNum cPx) (VNum cPy) (VNum 1) (VNum 1) = None ->
        CircleCollider_boxIntersection this box = TypeError).
Proof.
  intros this box cPx cPy H.
  unfold CircleCollider_boxIntersection. cbv zeta. cbn [_x _y].
  fold cPx cPy. rewrite H.
  destruct (AABBCollider_intersection box (VNum cPx) (VNum cPy) (VNum 1) (VNum 1)).
  - split; [|discriminate].
    destruct (CircleCollider_intersection this _ _ 0); discriminate.
  - split; [discriminate | reflexivity].
Qed.

(** The unit circle centred at (0.5, 0), inside the unit box: the point
    pushed to the far side of the box is 1.5 away, more than the radius,
    and the call throws. *)
Lemma CircleCollider_boxIntersection_centre_inside_witness :
  CircleCollider_boxIntersection (new_CircleCollider half 0 1) unit_box
  <> Normal None
  /\ CircleCollider_boxIntersection (new_CircleCollider half 0 1) unit_box
     = TypeError.
Proof.
  split; [|reflexivity].
  apply (proj1 (CircleCollider_boxIntersection_centre_inside
                  (new_CircleCollider half 0 1) unit_box eq_refl)).
Defined.

(** ** Vector2D.rotate *)

Lemma mul_zero_finite (a : number) (s : bool) :
  is_finite a = true -> is_zero (a * S754_zero s) = true.
Proof. destruct a; intros H; try discriminate; reflexivity. Qed.

Lemma add_zero_r_near_any (c z : number) :
  is_finite c = true -> is_zero z = true -> near c (c + z).
Proof.
  destruct c as [[]| | |], z as [[]| | |]; intros Hc Hz; try discriminate;
    (now left) || (right; now split).
Qed.

Lemma add_zero_l_near_any (c z : number) :
  is_finite c = true -> is_zero z = true -> near c (z + c).
Proof. intros Hc Hz. rewrite add_comm. now apply add_zero_r_near_any. Qed.

Lemma neg_finite (a : number) : is_finite (- a) = is_finite a.
Proof. destruct a; reflexivity. Qed.

(** Rotation by the vector (1, 0), in the direction [d = 1] or
    [d = -1]. *)
Lemma Vector2D_rotate_by_unit_x (this : Vector2D) (d : number) :
  valid (_x this) = true -> valid (_y this) = true ->
  is_finite (_x this) = true -> is_finite (_y this) = true ->
  d = 1 \/ d = of_Z (-1) ->
  near (_x this) (_x (Vector2D_rotate this 1 0 d))
  /\ near (_y this) (_y (Vector2D_rotate this 1 0 d)).
Proof.
  intros Hvx Hvy Hfx Hfy Hd.
  unfold Vector2D_rotate. cbv zeta. cbn [_x _y].
  change (_x this * 1) with (mul (_x this) (of_Z 1)). rewrite mul_one_r by assumption.
  assert (Hw : forall e, e = 1 \/ e = of_Z (-1) ->
             (_y this * e = _y this \/ _y this * e = - _y this)).
  { intros e [->| ->].
    - left. now apply mul_one_r.
    - right. now apply mul_minus_one_r. }
  assert (Hfw : forall e, e = 1 \/ e = of_Z (-1) -> is_finite (_y this * e) = true).
  { intros e He. destruct (Hw e He) as [->| ->]; [|rewrite neg_finite]; assumption. }
  assert (Hnd : - d = 1 \/ - d = of_Z (-1)) by (destruct Hd as [->| ->]; auto).
  split.
  - apply add_zero_r_near_any; [assumption|].
    apply mul_zero_finite. now apply Hfw.
  - set (w := _y this * d).
    assert (Hvw : valid w = true).
    { subst w. destruct (Hw d Hd) as [->| ->]; [|apply neg_valid]; assumption. }
    change (w * 1) with (mul w (of_Z 1)). rewrite mul_one_r by assumption.
    assert (Hq : near w (_x this * 0 + w)).
    { apply add_zero_l_near_any; [now apply Hfw|now apply mul_zero_finite]. }
    assert (Hback : w * d = _y this).
    { subst w. destruct Hd as [->| ->].
      - change (?a * 1) with (mul a (of_Z 1)). now rewrite !mul_one_r.
      - change (?a * of_Z (-1)) with (mul a (of_Z (-1))).
        rewrite !mul_minus_one_r by (try apply neg_valid; assumption).
        apply neg_involutive. }
    destruct Hq as [->|[Hw0 Hq0]].
    + left. exact Hback.
    + right. split.
      * rewrite <- Hback. destruct w as [sw| | |]; try discriminate.
        destruct Hd as [->| ->]; reflexivity.
      * destruct (_x this * 0 + w) as [sq| | |]; try discriminate.
        destruct Hd as [->| ->]; reflexivity.
Qed.

(** X21.  Rotating or unrotating a vector with finite components by the
    vector (1, 0) leaves it unchanged, up to the sign of a zero
    component. *)
Theorem Vector2D_rotate_by_unit_x_is_identity :
  forall this : Vector2D,
    valid (_x this) = true -> valid (_y this) = true ->
    is_finite (_x this) = true -> is_finite (_y this) = true ->
    let r := Vector2D_rotateByVector this (new_Vector2D 1 0) in
    let u := Vector2D_unrotateByVector this (new_Vector2D 1 0) in
    near (_x this) (_x r) /\ near (_y this) (_y r)
    /\ near (_x this) (_x u) /\ near (_y this) (_y u).
Proof.
  intros this Hvx Hvy Hfx Hfy r u.
  destruct (Vector2D_rotate_by_unit_x this 1 Hvx Hvy Hfx Hfy (or_introl eq_refl))
    as [H1 H2].
  destruct (Vector2D_rotate_by_unit_x this (of_Z (-1)) Hvx Hvy Hfx Hfy
              (or_intror eq_refl)) as [H3 H4].
  repeat split; assumption.
Qed.

Lemma Vector2D_rotate_by_unit_x_is_identity_witness :
  near three (_x (Vector2D_rotateByVector (new_Vector2D three half)
                    (new_Vector2D 1 0)))
  /\ near half (_y (Vector2D_rotateByVector (new_Vector2D three half)
                      (new_Vector2D 1 0))).
Proof.
  destruct (Vector2D_rotate_by_unit_x_is_identity (new_Vector2D three half)
              eq_refl eq_refl eq_refl eq_refl) as (H1 & H2 & _).
  split; assumption.
Defined.

(** ** A ray whose vector is NaN *)

Lemma div_NaN_r (a : number) : a / NaN = NaN.
Proof. destruct a; reflexivity. Qed.

Section CastNaN.

Variable map : TileMap2D.
Variables oX oY dX dY sX : number.

(** With a step distance in x that is NaN, every iteration advances in
    y. *)
Lemma cast_loop_NaN (fuel i : nat) (st : CastState) :
  stepDistX st = NaN ->
  match snd (cast_loop map oX oY NaN NaN dX dY sX 1 fuel i st) with
  | Hit h =>
      axis h = axis_y /\ distance h = NaN /\ offset h = NaN
      /\ exists k : nat,
           (1 <= k <= fuel)%nat
           /\ tile h = getTile map (mapPosX st)
                         (Nat.iter k (fun y => y + 1) (mapPosY st))
  | NoHit => True
  end.
Proof.
  revert i st. induction fuel as [|fuel IH]; intros i st Hx; cbn [cast_loop].
  - exact I.
  - rewrite Hx, lt_NaN_l.
    destruct (_blocking (getTile map (mapPosX st) (mapPosY st + 1))).
    + cbn [snd axis distance offset tile]. unfold calcOffset, calcDistance.
      rewrite !div_NaN_r. repeat split; [now nan|].
      exists 1%nat. split; [lia | reflexivity].
    + match goal with
      | |- context [cast_loop _ _ _ _ _ _ _ _ _ fuel (S i) ?st'] =>
          specialize (IH (S i) st' eq_refl);
          destruct (snd (cast_loop map oX oY NaN NaN dX dY sX 1 fuel (S i) st'))
      end; [|exact I].
      destruct IH as (Ha & Hd & Ho & k & Hk & Ht). repeat split; try assumption.
      exists (S k). split; [lia|].
      rewrite Ht. cbn [mapPosX mapPosY]. f_equal.
      now rewrite Nat.iter_succ_r.
Qed.

End CastNaN.

(** X22.  A ray whose vector is (NaN, NaN), which is what a camera of
    one column casts, never advances in x: [cast] returns the no-hit
    value, or a hit on axis y whose distance and offset are NaN and whose
    tile is one of the [range] cells that follow the origin's cell in
    its column of the map. *)
Theorem Ray2D_cast_NaN_vector :
  forall (origin : Point2D) (map : TileMap2D) (range : nat),
    match Ray2D_cast (mk_Ray2D origin (new_Vector2D NaN NaN)) map range with
    | Hit h =>
        axis h = axis_y /\ distance h = NaN /\ offset h = NaN
        /\ exists k : nat,
             (1 <= k <= range)%nat
             /\ tile h = getTile map (Math_floor (_x origin))
                           (Nat.iter k (fun y => y + 1) (Math_floor (_y origin)))
    | NoHit => True
    end.
Proof.
  intros origin map range.
  unfold Ray2D_cast, Ray2D_cast_steps, new_Vector2D. cbn [_origin _vector _x _y].
  rewrite !lt_NaN_l. cbv iota beta.
  change (Math_abs (1 / NaN)) with NaN.
  match goal with
  | |- context [cast_loop ?m ?a ?b NaN NaN ?dx ?dy ?sx 1 range 0 ?st] =>
      pose proof (cast_loop_NaN m a b dx dy sx range 0 st) as H
  end.
  cbn [stepDistX mapPosX mapPosY] in H. apply H. now nan.
Qed.
